(** * discover.py: buyNow comparison report

    A shallow embedding of [public/scripts/discover.py].  The script loads a
    backtest JSON document, splits its events on [signal.buyNow], and prints
    aggregate statistics for both groups and their differences.

    JSON values are embedded as the Python objects [json.load] builds from
    them, Python floats as the kernel's binary64 numbers, and raising code
    as functions into [result]. *)

From Stdlib Require Import ZArith List String Ascii Bool Lia Floats Permutation.
Import ListNotations.

Local Open Scope string_scope.
Local Open Scope list_scope.

Set Warnings "-register-all".

(** ** Python values and exceptions *)

(** What [json.load] can return: [None], booleans, unbounded integers,
    doubles (the decoder also accepts [NaN], [Infinity] and [-Infinity]),
    strings, lists and dicts.  A dict is kept as its list of items. *)
Inductive pyval : Type :=
| PNone
| PBool (b : bool)
| PInt (z : Z)
| PFloat (f : float)
| PStr (s : string)
| PList (l : list pyval)
| PDict (d : list (string * pyval)).

(** The exceptions the script's expressions can raise; all of them derive
    from [Exception], so [except Exception] catches each one. *)
Inductive exn : Type :=
| AttributeError
| TypeError
| ValueError
| OverflowError
| ZeroDivisionError
| StatisticsError.

Inductive result (A : Type) : Type :=
| Ok (a : A)
| Raise (e : exn).

Arguments Ok {A} a.
Arguments Raise {A} e.

Definition bind {A B : Type} (c : result A) (k : A -> result B) : result B :=
  match c with
  | Ok a => k a
  | Raise e => Raise e
  end.

Notation "x <- c ;; k" := (bind c (fun x => k))
  (at level 61, c at next level, right associativity).

(** [[f(x) for x in xs]] with a body that may raise: left to right, the
    first exception ends the comprehension. *)
Fixpoint mapM {A B : Type} (f : A -> result B) (xs : list A) : result (list B) :=
  match xs with
  | [] => Ok []
  | x :: rest => y <- f x ;; ys <- mapM f rest ;; Ok (y :: ys)
  end.

Definition returns {A : Type} (c : result A) : Prop :=
  exists a, c = Ok a.

(** ** Dict access and truth values *)

Fixpoint dict_get (d : list (string * pyval)) (k : string) : option pyval :=
  match d with
  | [] => None
  | (k', v) :: rest => if String.eqb k' k then Some v else dict_get rest k
  end.

(** [v.get(k)]: only a dict has the method; a missing key gives [None]. *)
Definition py_get (v : pyval) (k : string) : result pyval :=
  match v with
  | PDict d => Ok (match dict_get d k with Some x => x | None => PNone end)
  | _ => Raise AttributeError
  end.

Definition truthy (v : pyval) : bool :=
  match v with
  | PNone => false
  | PBool b => b
  | PInt z => negb (z =? 0)%Z
  | PFloat f => negb (f =? 0)%float
  | PStr s => negb (String.eqb s "")
  | PList l => match l with [] => false | _ => true end
  | PDict d => match d with [] => false | _ => true end
  end.

(** [a or b] *)
Definition py_or (a b : pyval) : pyval := if truthy a then a else b.

(** [(r.get(outer) or {}).get(inner)] *)
Definition nested_get (r : pyval) (outer inner : string) : result pyval :=
  o <- py_get r outer ;; py_get (py_or o (PDict [])) inner.

Arguments nested_get : simpl never.

(** [x == s] for a string literal [s]: only an equal string compares equal. *)
Definition eq_str (x : pyval) (s : string) : bool :=
  match x with
  | PStr t => String.eqb t s
  | _ => false
  end.

(** [x is True] *)
Definition is_True (x : pyval) : bool :=
  match x with
  | PBool true => true
  | _ => false
  end.

(** Lists and dicts are unhashable; everything else [json.load] builds can
    be a [Counter] key. *)
Definition hashable (x : pyval) : bool :=
  match x with
  | PList _ | PDict _ => false
  | _ => true
  end.

(** ** Numbers *)

(** [float(z)] for an integer: the nearest double, ties to even, and
    [OverflowError] where that would be an infinity. *)
Definition float_of_int (z : Z) : result float :=
  match binary_normalize prec emax z 0 false with
  | S754_infinity _ => Raise OverflowError
  | sf => Ok (SF2Prim sf)
  end.

(** [x / y] on floats raises on a zero divisor instead of returning an
    infinity or a NaN. *)
Definition fdiv (x y : float) : result float :=
  if (y =? 0)%float then Raise ZeroDivisionError else Ok (x / y)%float.

(** [x / k] with an integer divisor: the divisor is converted first. *)
Definition fdiv_int (x : float) (k : Z) : result float :=
  y <- float_of_int k ;; fdiv x y.

(** [sum(ys)] over floats: the integer start value 0 is converted by the
    first addition, the rest are added left to right.  (CPython from 3.12
    on also compensates the rounding errors of the partial sums; nothing
    below depends on the last bits of a sum of several values.) *)
Definition fsum (ys : list float) : float :=
  fold_left add ys 0%float.

Definition len {A : Type} (xs : list A) : Z := Z.of_nat (List.length xs).

(** [sorted(ys)]: a stable sort by [<]. *)
Fixpoint insert_sorted (x : float) (ys : list float) : list float :=
  match ys with
  | [] => [x]
  | y :: rest => if (y <? x)%float then y :: insert_sorted x rest else x :: ys
  end.

Fixpoint sorted (ys : list float) : list float :=
  match ys with
  | [] => []
  | y :: rest => insert_sorted y (sorted rest)
  end.

(** [statistics.median]: the middle element of the sorted data, or the
    mean of the two middle ones. *)
Definition median (ys : list float) : result float :=
  let data := sorted ys in
  let n := List.length data in
  match n with
  | O => Raise StatisticsError
  | _ =>
    if Nat.odd n then Ok (nth (Nat.div n 2) data 0%float)
    else
      let i := Nat.div n 2 in
      fdiv_int (nth (i - 1) data 0%float + nth i data 0%float)%float 2
  end.

Section Discover.

(** [float(s)] for a string is the interpreter's parser; the script only
    depends on whether it succeeds and on the double it returns. *)
Variable str_to_float : string -> option float.

(** [float(v)] *)
Definition py_float (v : pyval) : result float :=
  match v with
  | PNone => Raise TypeError
  | PBool b => Ok (if b then 1%float else 0%float)
  | PInt z => float_of_int z
  | PFloat f => Ok f
  | PStr s =>
    match str_to_float s with
    | Some f => Ok f
    | None => Raise ValueError
    end
  | PList _ | PDict _ => Raise TypeError
  end.

(** ** The script *)

(** [pct(n, d)] *)
Definition pct (n d : Z) : result float :=
  if (d =? 0)%Z then Ok nan
  else x <- float_of_int n ;; fdiv_int (100 * x)%float d.

(** The loop shared by [safe_mean] and [safe_median]: a value is appended
    when [float] accepts it and the result is finite; any exception skips
    the value. *)
Definition keep_finite (ys : list float) (v : pyval) : list float :=
  match py_float v with
  | Ok y => if is_finite y then ys ++ [y] else ys
  | Raise _ => ys
  end.

Definition finite_values (xs : list pyval) : list float :=
  fold_left keep_finite xs [].

Definition safe_mean (xs : list pyval) : result float :=
  let ys := finite_values xs in
  match ys with
  | [] => Ok nan
  | _ => fdiv_int (fsum ys) (len ys)
  end.

Definition safe_median (xs : list pyval) : result float :=
  let ys := finite_values xs in
  match ys with
  | [] => Ok nan
  | _ => median ys
  end.

(** The coercion inside [profit_factor]: an exception gives 0.0. *)
Definition float_or_zero (v : pyval) : float :=
  match py_float v with
  | Ok x => x
  | Raise _ => 0%float
  end.

(** One pass of the body of the [for] loop after [R] has been coerced. *)
Definition pf_step (acc : float * float) (R : float) : float * float :=
  let '(gains, losses) := acc in
  if (0 <? R)%float then ((gains + R)%float, losses)
  else if (R <? 0)%float then (gains, (losses + (- R))%float)
  else (gains, losses).

Fixpoint pf_loop (rows : list pyval) (acc : float * float)
  : result (float * float) :=
  match rows with
  | [] => Ok acc
  | r :: rest =>
    R <- nested_get r "simulation" "R" ;;
    pf_loop rest (pf_step acc (float_or_zero R))
  end.

Definition pf_ratio (acc : float * float) : result float :=
  let '(gains, losses) := acc in
  if (losses =? 0)%float then
    Ok (if (0 <? gains)%float then infinity else nan)
  else fdiv gains losses.

Definition profit_factor (rows : list pyval) : result float :=
  acc <- pf_loop rows (0%float, 0%float) ;; pf_ratio acc.

(** [sum(1 for r in rows if (r.get("simulation") or {}).get("result") == s)] *)
Fixpoint count_result (rows : list pyval) (s : string) : result Z :=
  match rows with
  | [] => Ok 0%Z
  | r :: rest =>
    x <- nested_get r "simulation" "result" ;;
    k <- count_result rest s ;;
    Ok (if eq_str x s then (1 + k)%Z else k)
  end.

(** [Counter(f(r) for r in rows)]: the elements are produced one at a time
    and each is hashed as it is counted.  The counter is only ever asked for
    string keys, so it is kept as the list of the elements counted. *)
Fixpoint Counter (f : pyval -> result pyval) (rows : list pyval)
  : result (list pyval) :=
  match rows with
  | [] => Ok []
  | r :: rest =>
    x <- f r ;;
    if hashable x then c <- Counter f rest ;; Ok (x :: c)
    else Raise TypeError
  end.

(** [ex.get(s, 0)] *)
Definition counter_get (c : list pyval) (s : string) : Z :=
  len (filter (fun x => eq_str x s) c).

Record Summary : Type := {
  s_n : Z;
  s_wins : Z;
  s_win_rate_pct : float;
  s_avg_R : float;
  s_med_R : float;
  s_exp_R : float;
  s_profit_factor : float;
  s_avg_return_pct : float;
  s_avg_hold_days : float;
  s_target_hit_pct : float;
  s_stop_hit_pct : float;
  s_time_exit_pct : float;
  s_avg_rr_at_entry : float;
  s_avg_mae_pct : float;
  s_avg_mfe_pct : float
}.

Definition summarize (rows : list pyval) : result Summary :=
  let n := len rows in
  wins <- count_result rows "WIN" ;;
  losses <- count_result rows "LOSS" ;;
  ex <- Counter (fun r => nested_get r "simulation" "exitType") rows ;;
  R_vals <- mapM (fun r => nested_get r "simulation" "R") rows ;;
  ret_vals <- mapM (fun r => nested_get r "simulation" "returnPct") rows ;;
  rr_vals <- mapM (fun r => nested_get r "risk" "rrAtEntry") rows ;;
  hold_days <- mapM (fun r => nested_get r "simulation" "holdingDays") rows ;;
  mae_vals <- mapM (fun r => nested_get r "simulation" "maePct") rows ;;
  mfe_vals <- mapM (fun r => nested_get r "simulation" "mfePct") rows ;;
  win_rate <- pct wins n ;;
  avg_R <- safe_mean R_vals ;;
  med_R <- safe_median R_vals ;;
  exp_R <- safe_mean R_vals ;;
  pf <- profit_factor rows ;;
  avg_return <- safe_mean ret_vals ;;
  avg_hold <- safe_mean hold_days ;;
  target_hit <- pct (counter_get ex "TARGET") n ;;
  stop_hit <- pct (counter_get ex "STOP") n ;;
  time_exit <- pct (counter_get ex "TIME") n ;;
  avg_rr <- safe_mean rr_vals ;;
  avg_mae <- safe_mean mae_vals ;;
  avg_mfe <- safe_mean mfe_vals ;;
  Ok {| s_n := n;
        s_wins := wins;
        s_win_rate_pct := win_rate;
        s_avg_R := avg_R;
        s_med_R := med_R;
        s_exp_R := exp_R;
        s_profit_factor := pf;
        s_avg_return_pct := avg_return;
        s_avg_hold_days := avg_hold;
        s_target_hit_pct := target_hit;
        s_stop_hit_pct := stop_hit;
        s_time_exit_pct := time_exit;
        s_avg_rr_at_entry := avg_rr;
        s_avg_mae_pct := avg_mae;
        s_avg_mfe_pct := avg_mfe |}.

(** The summary seen as the dict [summarize] returns: [s.get(key)]. *)
Definition summary_get (s : Summary) (key : string) : pyval :=
  if String.eqb key "n" then PInt (s_n s)
  else if String.eqb key "wins" then PInt (s_wins s)
  else if String.eqb key "win_rate_%" then PFloat (s_win_rate_pct s)
  else if String.eqb key "avg_R" then PFloat (s_avg_R s)
  else if String.eqb key "med_R" then PFloat (s_med_R s)
  else if String.eqb key "exp_R" then PFloat (s_exp_R s)
  else if String.eqb key "profit_factor" then PFloat (s_profit_factor s)
  else if String.eqb key "avg_return_%" then PFloat (s_avg_return_pct s)
  else if String.eqb key "avg_hold_days" then PFloat (s_avg_hold_days s)
  else if String.eqb key "target_hit_%" then PFloat (s_target_hit_pct s)
  else if String.eqb key "stop_hit_%" then PFloat (s_stop_hit_pct s)
  else if String.eqb key "time_exit_%" then PFloat (s_time_exit_pct s)
  else if String.eqb key "avg_rr_at_entry" then PFloat (s_avg_rr_at_entry s)
  else if String.eqb key "avg_mae_%" then PFloat (s_avg_mae_pct s)
  else if String.eqb key "avg_mfe_%" then PFloat (s_avg_mfe_pct s)
  else PNone.

(** The partition loop of [main]. *)
Fixpoint partition_loop (events buy_true buy_false : list pyval)
  : result (list pyval * list pyval) :=
  match events with
  | [] => Ok (buy_true, buy_false)
  | r :: rest =>
    b <- nested_get r "signal" "buyNow" ;;
    if is_True b then partition_loop rest (buy_true ++ [r]) buy_false
    else partition_loop rest buy_true (buy_false ++ [r])
  end.

Definition partition_events (events : list pyval)
  : result (list pyval * list pyval) :=
  partition_loop events [] [].

(** [delta(a, b, key)] of [main], on the values [a.get(key)] and
    [b.get(key)]. *)
Definition delta_values (av bv : pyval) : float :=
  match py_float av with
  | Raise _ => nan
  | Ok x =>
    match py_float bv with
    | Raise _ => nan
    | Ok y => if is_finite x && is_finite y then (x - y)%float else nan
    end
  end.

Definition delta (a b : Summary) (key : string) : float :=
  delta_values (summary_get a key) (summary_get b key).

End Discover.

(** ** Example records *)

Definition record_A : pyval :=
  PDict [("signal", PDict [("buyNow", PBool true)]);
         ("simulation", PDict [("R", PInt 2); ("result", PStr "WIN");
                               ("exitType", PStr "TARGET")])].

Definition record_B : pyval :=
  PDict [("signal", PDict [("buyNow", PBool false)]);
         ("simulation", PDict [("R", PInt (-1)); ("result", PStr "LOSS");
                               ("exitType", PStr "STOP")])].

(** A record whose [simulation] is a string, and one whose [exitType] is a
    list. *)
Definition record_text_simulation : pyval :=
  PDict [("simulation", PStr "n/a")].

Definition record_list_exit : pyval :=
  PDict [("simulation", PDict [("exitType", PList [])])].

(** A record with a string where [R] should be a number. *)
Definition record_text_R : pyval :=
  PDict [("simulation", PDict [("R", PStr "n/a"); ("result", PStr "LOSS")])].

(** Two records with infinite [R], as [Infinity] and [-Infinity] decode. *)
Definition record_inf : pyval :=
  PDict [("simulation", PDict [("R", PFloat infinity)])].

Definition record_neg_inf : pyval :=
  PDict [("simulation", PDict [("R", PFloat neg_infinity)])].

(** A winning record with nothing else in it, and very many of them. *)
Definition record_win : pyval :=
  PDict [("simulation", PDict [("result", PStr "WIN")])].

Definition many : Z := 5920956124208825.

Definition many_wins : list pyval := repeat record_win (Z.to_nat many).

(** The examples hold no string that [float] accepts. *)
Definition rejects_all : string -> option float := fun _ => None.

(** ** The data model *)

(** A nested field is usable when it is a dict or something [or] replaces
    by the empty dict. *)
Definition mapping_or_falsy (v : pyval) : bool :=
  match v with
  | PDict _ => true
  | _ => negb (truthy v)
  end.

Definition field_ok (d : list (string * pyval)) (k : string) : bool :=
  match dict_get d k with
  | Some v => mapping_or_falsy v
  | None => true
  end.

(** [r] is a mapping and [(r.get(outer) or {})] is one too. *)
Definition readable (outer : string) (r : pyval) : bool :=
  match r with
  | PDict d => field_ok d outer
  | _ => false
  end.

(** A trade record: a mapping whose [signal], [simulation] and [risk] are
    absent, null (or otherwise false) or mappings. *)
Definition trade_record (r : pyval) : bool :=
  readable "signal" r && readable "simulation" r && readable "risk" r.

(** The part of it [summarize] reads, with an [exitType] that can be
    counted. *)
Definition countable_record (r : pyval) : bool :=
  readable "simulation" r && readable "risk" r &&
  match nested_get r "simulation" "exitType" with
  | Ok x => hashable x
  | Raise _ => false
  end.

(** [signal.buyNow is True], for a record the lookup accepts. *)
Definition buy_now (r : pyval) : bool :=
  match nested_get r "signal" "buyNow" with
  | Ok x => is_True x
  | Raise _ => false
  end.

(** [(r.get("simulation") or {}).get("R")] *)
Definition get_R (r : pyval) : result pyval := nested_get r "simulation" "R".

(** [simulation.result == s] *)
Definition has_result (s : string) (r : pyval) : bool :=
  match nested_get r "simulation" "result" with
  | Ok x => eq_str x s
  | Raise _ => false
  end.

(** ** The policies in the specification's words *)

Section Policies.

Variable str_to_float : string -> option float.

(** Coerce; discard what fails coercion and what is infinite or NaN. *)
Definition try_finite (v : pyval) : option float :=
  match py_float str_to_float v with
  | Ok y => if is_finite y then Some y else None
  | Raise _ => None
  end.

Definition survivors (xs : list pyval) : list float :=
  flat_map (fun v => match try_finite v with Some y => [y] | None => [] end) xs.

(** Sum of the positive values over the sum of the absolute negative
    values; with no losses, infinity for a positive gain sum and NaN
    otherwise. *)
Definition pf_value (Rs : list float) : float :=
  let gains := fsum (filter (fun R => 0 <? R)%float Rs) in
  let losses := fsum (map abs (filter (fun R => R <? 0)%float Rs)) in
  if (losses =? 0)%float then
    if (0 <? gains)%float then infinity else nan
  else (gains / losses)%float.


(** true value minus false value when both are finite numbers *)
Definition finite_difference (av bv : pyval) : option float :=
  match py_float str_to_float av, py_float str_to_float bv with
  | Ok x, Ok y => if is_finite x && is_finite y then Some (x - y)%float else None
  | _, _ => None
  end.

End Policies.

(** ** Exit types *)

(** [simulation.exitType == s] *)
Definition has_exit_type (s : string) (r : pyval) : bool :=
  match nested_get r "simulation" "exitType" with
  | Ok x => eq_str x s
  | Raise _ => false
  end.

(** An [exitType] that [Counter] can hash. *)
Definition exit_type_hashable (r : pyval) : bool :=
  match nested_get r "simulation" "exitType" with
  | Ok x => hashable x
  | Raise _ => false
  end.

(** ** The rest of [main] *)

(** The two summaries [main] prints: the partition, then [summarize] on the
    true group and on the false group. *)
Definition main_summaries (str_to_float : string -> option float)
  (events : list pyval) : result (Summary * Summary) :=
  groups <- partition_events events ;;
  s_true <- summarize str_to_float (fst groups) ;;
  s_false <- summarize str_to_float (snd groups) ;;
  Ok (s_true, s_false).

(** The keys of the [deltas] dict of [main], in its order. *)
Definition delta_keys : list string :=
  ["win_rate_%"; "avg_R"; "med_R"; "exp_R"; "profit_factor"; "avg_return_%";
   "avg_hold_days"; "target_hit_%"; "stop_hit_%"; "time_exit_%";
   "avg_rr_at_entry"; "avg_mae_%"; "avg_mfe_%"].

(** The [deltas] dict of [main], as its list of items. *)
Definition deltas (str_to_float : string -> option float)
  (s_true s_false : Summary) : list (string * float) :=
  map (fun key => (key, delta str_to_float s_true s_false key)) delta_keys.

(** ** Printing *)

(** A Python string as its sequence of code points, so that [len] counts
    characters. *)
Definition text : Type := list N.

(** An ASCII literal of the script. *)
Definition lit (s : string) : text := map N_of_ascii (list_ascii_of_string s).

Definition space : N := 32.

(** [t.ljust(w)] and [t.rjust(w)]: padded with spaces up to [w] characters,
    unchanged when already that long. *)
Definition ljust (t : text) (w : Z) : text := t ++ repeat space (Z.to_nat (w - len t)).

Definition rjust (t : text) (w : Z) : text := repeat space (Z.to_nat (w - len t)) ++ t.

(** [max(...)] over a generator of integers: [ValueError] when it is
    empty. *)
Definition py_max (xs : list Z) : result Z :=
  match xs with
  | [] => Raise ValueError
  | x :: rest => Ok (fold_left Z.max rest x)
  end.

(** ["-" * n] *)
Definition dashes (n : Z) : text := repeat 45%N (Z.to_nat n).

(** A value of the [headers] list: a number as [summarize] returned it, or
    the string [fmt] made of one. *)
Inductive cell : Type :=
| Raw (v : pyval)
| Shown (t : text).

Section Printing.

Variable str_to_float : string -> option float.

(** [f"{xv:.{p}f}"] and [str(x)] are the interpreter's. *)
Variable format_fixed : float -> nat -> text.
Variable py_str : pyval -> text.

(** [fmt(x, p)], for a number of digits [p]; every call in the script
    leaves [p] at its default 2. *)
Definition fmt (x : pyval) (p : nat) : text :=
  match x with
  | PNone => []
  | _ =>
    match py_float str_to_float x with
    | Ok xv =>
      if is_infinity xv then [8734%N]
      else if is_nan xv then lit "NaN"
      else format_fixed xv p
    | Raise _ => py_str x
    end
  end.

(** [str(v)] on a cell: a string is its own [str]. *)
Definition str_cell (c : cell) : text :=
  match c with
  | Raw v => py_str v
  | Shown t => t
  end.

(** The [headers] list of [print_table]. *)
Definition headers (s : Summary) : list (text * cell) :=
  [(lit "Trades", Raw (summary_get s "n"));
   (lit "Wins", Raw (summary_get s "wins"));
   (lit "Win rate %", Shown (fmt (summary_get s "win_rate_%") 2));
   (lit "Avg R", Shown (fmt (summary_get s "avg_R") 2));
   (lit "Med R", Shown (fmt (summary_get s "med_R") 2));
   (lit "Expectancy R", Shown (fmt (summary_get s "exp_R") 2));
   (lit "Profit factor", Shown (fmt (summary_get s "profit_factor") 2));
   (lit "Avg return %", Shown (fmt (summary_get s "avg_return_%") 2));
   (lit "Avg hold (days)", Shown (fmt (summary_get s "avg_hold_days") 2));
   (lit "Target hit %", Shown (fmt (summary_get s "target_hit_%") 2));
   (lit "Stop hit %", Shown (fmt (summary_get s "stop_hit_%") 2));
   (lit "Time exit %", Shown (fmt (summary_get s "time_exit_%") 2));
   (lit "Avg RR at entry", Shown (fmt (summary_get s "avg_rr_at_entry") 2));
   (lit "Avg MAE %", Shown (fmt (summary_get s "avg_mae_%") 2));
   (lit "Avg MFE %", Shown (fmt (summary_get s "avg_mfe_%") 2))].

(** One line of a table: [f"{k.ljust(width_k)} : {v.rjust(width_v)}"]. *)
Definition table_row (width_k width_v : Z) (k v : text) : text :=
  ljust k width_k ++ lit " : " ++ rjust v width_v.

(** [print_table(title, s)]: the strings it prints, one per [print]. *)
Definition print_table (title : text) (s : Summary) : result (list text) :=
  let hs := headers s in
  width_k <- py_max (map (fun kv => len (fst kv)) hs) ;;
  width_v <- py_max (map (fun kv => len (str_cell (snd kv))) hs) ;;
  let bar := dashes (width_k + width_v + 5) in
  Ok (([10%N] ++ title ++ [10%N] ++ bar)
        :: map (fun kv => table_row width_k width_v (fst kv) (str_cell (snd kv))) hs
        ++ [bar]).

(** The delta section of [main], from the [deltas] dict on. *)
Definition print_deltas (ds : list (string * float)) : result (list text) :=
  width_k <- py_max (map (fun kv => len (lit (fst kv))) ds) ;;
  width_v <- py_max (map (fun kv => len (fmt (PFloat (snd kv)) 2)) ds) ;;
  let bar := dashes (width_k + width_v + 5) in
  Ok ([[10%N; 916%N] ++ lit " True - False"; bar]
        ++ map (fun kv => table_row width_k width_v (lit (fst kv))
                                    (fmt (PFloat (snd kv)) 2)) ds
        ++ [bar]).

End Printing.

(** ** Binary64 notions used in the proofs *)

Abbreviation fexp64 := (SpecFloat.fexp prec emax).

(** the round and sticky bits of a shifted mantissa say something was lost *)
Definition inexact (mrs : shr_record) : bool := shr_r mrs || shr_s mrs.

Definition loc_inexact (l : location) : bool :=
  match l with
  | loc_Exact => false
  | _ => true
  end.

(** the last step of [binary_round_aux] *)
Definition round_result (s : bool) (m e : Z) : spec_float :=
  match m with
  | Z0 => S754_zero s
  | Zpos p => if (e <=? emax - prec)%Z then S754_finite s p e else S754_infinity s
  | Zneg _ => S754_nan
  end.

(** The double that holds the integer [z], for [0 < z < 2^53]: the
    mantissa is [z] shifted up to 53 digits. *)
Definition SFint (z : Z) : spec_float :=
  S754_finite false (Z.to_pos (z * 2 ^ (53 - Zdigits2 z))) (Zdigits2 z - 53).

Definition Fint (z : Z) : float := SF2Prim (SFint z).

(** strictly positive: a positive finite number or plus infinity *)
Definition SFpos (x : spec_float) : bool :=
  match x with
  | S754_finite false _ _ | S754_infinity false => true
  | _ => false
  end.

(** what an accumulator that starts at 0.0 and only grows can hold *)
Definition SFacc (x : spec_float) : bool :=
  match x with
  | S754_zero false => true
  | _ => SFpos x
  end.

Definition is_pos (f : float) : bool := (0 <? f)%float.

Definition is_acc (f : float) : bool := SFacc (Prim2SF f).

(** * Binary64 arithmetic

    What the proofs need of the doubles, derived from the bit-level
    specification of the primitive operations. *)

Local Open Scope Z_scope.

(** ** Digits *)

Lemma digits2_pos_size (p : positive) : digits2_pos p = Pos.size p.
Proof. induction p; simpl; congruence. Qed.

Lemma digits2_pos_bounds (p : positive) :
  2 ^ (Z.pos (digits2_pos p) - 1) <= Z.pos p < 2 ^ Z.pos (digits2_pos p).
Proof.
  rewrite digits2_pos_size. split.
  - pose proof (Pos.size_le p) as H.
    apply Pos2Z.pos_le_pos in H. rewrite Pos2Z.inj_pow in H.
    replace (Z.pos (Pos.size p)) with (Z.succ (Z.pos (Pos.size p) - 1)) in H by lia.
    rewrite Z.pow_succ_r in H by lia. lia.
  - pose proof (Pos.size_gt p) as H.
    apply Pos2Z.pos_lt_pos in H. now rewrite Pos2Z.inj_pow in H.
Qed.

Lemma Zdigits2_bounds (q : Z) :
  0 < q -> 0 < Zdigits2 q /\ 2 ^ (Zdigits2 q - 1) <= q < 2 ^ Zdigits2 q.
Proof.
  destruct q as [|p|p]; try lia. intros _. simpl. split; [lia|].
  apply digits2_pos_bounds.
Qed.

(** a number between two consecutive powers of two has that many digits *)
Lemma Zdigits2_unique (q d : Z) :
  0 < d -> 2 ^ (d - 1) <= q < 2 ^ d -> Zdigits2 q = d.
Proof.
  intros Hd [Hlo Hhi].
  assert (0 < q) by (pose proof (Z.pow_pos_nonneg 2 (d - 1)); lia).
  destruct (Zdigits2_bounds q H) as (Hd' & Hlo' & Hhi').
  destruct (Z.lt_trichotomy (Zdigits2 q) d) as [Hlt|[Heq|Hgt]]; trivial; exfalso.
  - assert (2 ^ Zdigits2 q <= 2 ^ (d - 1)) by (apply Z.pow_le_mono_r; lia). lia.
  - assert (2 ^ d <= 2 ^ (Zdigits2 q - 1)) by (apply Z.pow_le_mono_r; lia). lia.
Qed.

Lemma Zdigits2_mono (a b : Z) : 0 < a -> a <= b -> Zdigits2 a <= Zdigits2 b.
Proof.
  intros Ha Hab.
  destruct (Zdigits2_bounds a Ha) as (Hda & Hla & Hha).
  destruct (Zdigits2_bounds b ltac:(lia)) as (Hdb & Hlb & Hhb).
  destruct (Z.le_gt_cases (Zdigits2 a) (Zdigits2 b)) as [|Hgt]; trivial. exfalso.
  assert (2 ^ Zdigits2 b <= 2 ^ (Zdigits2 a - 1)) by (apply Z.pow_le_mono_r; lia). lia.
Qed.

Lemma Zdigits2_shiftr (q k : Z) :
  0 < q -> 0 <= k < Zdigits2 q -> Zdigits2 (q / 2 ^ k) = Zdigits2 q - k.
Proof.
  intros Hq Hk.
  destruct (Zdigits2_bounds q Hq) as (Hd & Hlo & Hhi).
  assert (Hp : 0 < 2 ^ k) by (apply Z.pow_pos_nonneg; lia).
  apply Zdigits2_unique; [lia|]. split.
  - apply Z.div_le_lower_bound; trivial.
    rewrite <- Z.pow_add_r by lia. now replace (k + (Zdigits2 q - k - 1)) with (Zdigits2 q - 1) by lia.
  - apply Z.div_lt_upper_bound; trivial.
    rewrite <- Z.pow_add_r by lia. now replace (k + (Zdigits2 q - k)) with (Zdigits2 q) by lia.
Qed.

Lemma Zdigits2_shiftl (q k : Z) :
  0 < q -> 0 <= k -> Zdigits2 (q * 2 ^ k) = Zdigits2 q + k.
Proof.
  intros Hq Hk.
  destruct (Zdigits2_bounds q Hq) as (Hd & Hlo & Hhi).
  assert (Hp : 0 < 2 ^ k) by (apply Z.pow_pos_nonneg; lia).
  apply Zdigits2_unique; [lia|].
  replace (Zdigits2 q + k - 1) with ((Zdigits2 q - 1) + k) by lia.
  rewrite !Z.pow_add_r by lia. nia.
Qed.

Lemma iter_pos_invariant {A : Type} (f : A -> A) (P : Z -> A -> Prop) :
  (forall j y, 0 <= j -> P j y -> P (j + 1) (f y)) ->
  forall p j x, 0 <= j -> P j x -> P (j + Z.pos p) (iter_pos f p x).
Proof.
  intros Hstep. induction p as [p IH|p IH|]; intros j x Hj Hx; simpl.
  - replace (j + Z.pos p~1) with (j + 1 + Z.pos p + Z.pos p) by lia.
    apply IH; [lia|]. apply IH; [lia|]. now apply Hstep.
  - replace (j + Z.pos p~0) with (j + Z.pos p + Z.pos p) by lia.
    apply IH; [lia|]. now apply IH.
  - now apply Hstep.
Qed.

Lemma shr_1_m (mrs : shr_record) :
  0 <= shr_m mrs -> shr_m (shr_1 mrs) = shr_m mrs / 2.
Proof.
  destruct mrs as [m r s]. simpl. intros Hm.
  rewrite <- Z.div2_div.
  destruct m as [|[p|p|]|]; simpl; trivial; lia.
Qed.

Lemma shr_1_inexact (mrs : shr_record) :
  0 <= shr_m mrs ->
  inexact (shr_1 mrs) = Z.odd (shr_m mrs) || inexact mrs.
Proof.
  destruct mrs as [m r s]. unfold inexact. simpl. intros Hm.
  destruct m as [|[p|p|]|]; simpl; trivial; lia.
Qed.

Lemma mod_pow2_succ (q j : Z) :
  0 <= j ->
  (q mod 2 ^ (j + 1) =? 0) = (q mod 2 ^ j =? 0) && negb (Z.odd (q / 2 ^ j)).
Proof.
  intros Hj. assert (Hp : 0 < 2 ^ j) by (apply Z.pow_pos_nonneg; lia).
  rewrite Z.pow_add_r, Z.pow_1_r by lia.
  rewrite Z.rem_mul_r by lia. rewrite Zmod_odd.
  pose proof (Z.mod_pos_bound q (2 ^ j) Hp).
  destruct (Z.odd (q / 2 ^ j)); simpl.
  - rewrite andb_false_r. apply Z.eqb_neq. lia.
  - rewrite andb_true_r. f_equal. lia.
Qed.

Lemma iter_shr_1 (q : Z) (r s : bool) (p : positive) :
  0 <= q ->
  let mrs := iter_pos shr_1 p (Build_shr_record q r s) in
  shr_m mrs = q / 2 ^ Z.pos p /\
  inexact mrs = (r || s) || negb (q mod 2 ^ Z.pos p =? 0).
Proof.
  intros Hq.
  pose (P := fun (j : Z) (mrs : shr_record) =>
    shr_m mrs = q / 2 ^ j /\ inexact mrs = (r || s) || negb (q mod 2 ^ j =? 0)).
  change (P (Z.pos p) (iter_pos shr_1 p (Build_shr_record q r s))).
  replace (Z.pos p) with (0 + Z.pos p) by lia.
  apply iter_pos_invariant; [|lia|].
  - intros j y Hj [Hm Hi]. unfold P.
    assert (Hp : 0 < 2 ^ j) by (apply Z.pow_pos_nonneg; lia).
    assert (0 <= shr_m y) by (rewrite Hm; apply Z.div_pos; lia).
    rewrite shr_1_m, shr_1_inexact, Hm, Hi by trivial. split.
    + rewrite Z.div_div by lia. now rewrite Z.pow_add_r, Z.pow_1_r by lia.
    + rewrite mod_pow2_succ by trivial.
      destruct (r || s), (q mod 2 ^ j =? 0), (Z.odd (q / 2 ^ j)); reflexivity.
  - unfold P. simpl. rewrite Z.div_1_r, Z.mod_1_r. simpl.
    unfold inexact. simpl. now rewrite orb_false_r.
Qed.

Lemma inexact_of_loc (m : Z) (l : location) :
  inexact (shr_record_of_loc m l) = match l with loc_Exact => false | _ => true end.
Proof. destruct l as [|[]]; reflexivity. Qed.

Lemma shr_m_of_loc (m : Z) (l : location) : shr_m (shr_record_of_loc m l) = m.
Proof. destruct l as [|[]]; reflexivity. Qed.

Lemma record_of_loc_eta (m : Z) (l : location) :
  shr_record_of_loc m l =
  Build_shr_record m (shr_r (shr_record_of_loc m l)) (shr_s (shr_record_of_loc m l)).
Proof. destruct l as [|[]]; reflexivity. Qed.

(** [shr] by [k] positions: quotient, exponent and inexactness *)
Lemma shr_spec (q e k : Z) (l : location) :
  0 <= q ->
  let '(mrs, e') := shr (shr_record_of_loc q l) e k in
  let k' := Z.max 0 k in
  shr_m mrs = q / 2 ^ k' /\ e' = e + k' /\
  inexact mrs = loc_inexact l || negb (q mod 2 ^ k' =? 0).
Proof.
  intros Hq. unfold shr. destruct k as [|p|p].
  - simpl. rewrite Z.div_1_r, shr_m_of_loc, inexact_of_loc, Z.mod_1_r.
    simpl. rewrite orb_false_r. repeat split; lia.
  - rewrite record_of_loc_eta.
    destruct (iter_shr_1 q (shr_r (shr_record_of_loc q l)) (shr_s (shr_record_of_loc q l)) p Hq)
      as [Hm Hi].
    replace (Z.max 0 (Z.pos p)) with (Z.pos p) by lia.
    repeat split; trivial.
    rewrite Hi. f_equal. apply (inexact_of_loc q l).
  - replace (Z.max 0 (Z.neg p)) with 0 by lia. simpl.
    rewrite Z.div_1_r, shr_m_of_loc, inexact_of_loc, Z.mod_1_r.
    simpl. rewrite orb_false_r. repeat split; lia.
Qed.

Lemma round_nearest_even_bounds (mrs : shr_record) :
  let m' := round_nearest_even (shr_m mrs) (loc_of_shr_record mrs) in
  shr_m mrs <= m' <= shr_m mrs + 1 /\ (inexact mrs = false -> m' = shr_m mrs).
Proof.
  destruct mrs as [m [|] [|]]; unfold inexact; simpl;
    try destruct (Z.even m); split; try lia; discriminate.
Qed.

(** ** Rounding *)

Lemma binary_round_aux_shape (s : bool) (q e : Z) (l : location) :
  0 <= q ->
  exists m2 : Z,
    let k := Z.max 0 (fexp64 (Zdigits2 q + e) - e) in
    let k2 := Z.max 0 (fexp64 (Zdigits2 m2 + (e + k)) - (e + k)) in
    q / 2 ^ k <= m2 <= q / 2 ^ k + 1 /\
    (loc_inexact l = false -> q mod 2 ^ k = 0 -> m2 = q / 2 ^ k) /\
    binary_round_aux prec emax s q e l = round_result s (m2 / 2 ^ k2) (e + k + k2).
Proof.
  intros Hq. unfold binary_round_aux, shr_fexp.
  pose proof (shr_spec q e (fexp64 (Zdigits2 q + e) - e) l Hq) as H1.
  destruct (shr (shr_record_of_loc q l) e (fexp64 (Zdigits2 q + e) - e)) as [mrs1 e1].
  cbv zeta in H1. destruct H1 as (Hm1 & He1 & Hi1).
  set (k := Z.max 0 (fexp64 (Zdigits2 q + e) - e)) in *.
  destruct (round_nearest_even_bounds mrs1) as [Hb Hex]. cbv zeta in Hb, Hex.
  set (m2 := round_nearest_even (shr_m mrs1) (loc_of_shr_record mrs1)) in *.
  exists m2. cbv zeta.
  assert (Hk : 0 <= k) by (unfold k; lia).
  assert (Hp : 0 < 2 ^ k) by (apply Z.pow_pos_nonneg; lia).
  assert (Hm1pos : 0 <= q / 2 ^ k) by (apply Z.div_pos; lia).
  assert (Hm2 : 0 <= m2) by lia.
  pose proof (shr_spec m2 e1 (fexp64 (Zdigits2 m2 + e1) - e1) loc_Exact Hm2) as H2.
  destruct (shr (shr_record_of_loc m2 loc_Exact) e1 (fexp64 (Zdigits2 m2 + e1) - e1)) as [mrs2 e2].
  cbv zeta in H2. destruct H2 as (Hm2' & He2 & _).
  subst e1. rewrite Hm1 in Hb, Hex. split; [exact Hb|]. split.
  - intros Hl Hmod. apply Hex. rewrite Hi1, Hl, Hmod. reflexivity.
  - rewrite Hm2', He2. reflexivity.
Qed.

(** the result of rounding a non-negative mantissa is never negative or NaN *)
Lemma binary_round_aux_nonneg (q e : Z) (l : location) :
  0 <= q ->
  SFleb (S754_zero false) (binary_round_aux prec emax false q e l) = true.
Proof.
  intros Hq. destruct (binary_round_aux_shape false q e l Hq) as (m2 & Hb & _ & ->).
  cbv zeta in Hb.
  set (k := Z.max 0 (fexp64 (Zdigits2 q + e) - e)) in *.
  set (k2 := Z.max 0 _).
  assert (0 < 2 ^ k) by (apply Z.pow_pos_nonneg; unfold k; lia).
  assert (0 <= q / 2 ^ k) by (apply Z.div_pos; lia).
  assert (0 < 2 ^ k2) by (apply Z.pow_pos_nonneg; unfold k2; lia).
  assert (0 <= m2 / 2 ^ k2) by (apply Z.div_pos; lia).
  unfold round_result. destruct (m2 / 2 ^ k2); try lia; trivial.
  destruct (_ <=? _); reflexivity.
Qed.

Lemma fexp64_eq (x : Z) : fexp64 x = Z.max (x - 53) (-1074).
Proof. reflexivity. Qed.

Lemma bounded_inv (m : positive) (e : Z) :
  bounded prec emax m e = true ->
  fexp64 (Z.pos (digits2_pos m) + e) = e /\ e <= 971.
Proof.
  unfold bounded, canonical_mantissa. rewrite andb_true_iff, Z.eqb_eq, Z.leb_le.
  unfold emax, prec. lia.
Qed.

(** a positive mantissa at or above the smallest exponent rounds to a
    positive number or to infinity *)
Lemma binary_round_aux_pos (q e : Z) (l : location) :
  0 < q -> -1074 <= e ->
  (exists m e', binary_round_aux prec emax false q e l = S754_finite false m e') \/
  binary_round_aux prec emax false q e l = S754_infinity false.
Proof.
  intros Hq He. destruct (binary_round_aux_shape false q e l) as (m2 & Hb & _ & ->); [lia|].
  cbv zeta in Hb.
  destruct (Zdigits2_bounds q Hq) as (Hd & Hlo & Hhi).
  set (k := Z.max 0 (fexp64 (Zdigits2 q + e) - e)) in *.
  assert (Hk : 0 <= k < Zdigits2 q) by (unfold k; rewrite fexp64_eq; lia).
  assert (Hp : 0 < 2 ^ k) by (apply Z.pow_pos_nonneg; lia).
  assert (Hm1 : 1 <= q / 2 ^ k).
  { apply Z.div_le_lower_bound; trivial.
    assert (2 ^ k <= 2 ^ (Zdigits2 q - 1)) by (apply Z.pow_le_mono_r; lia). lia. }
  assert (Hm2 : 0 < m2) by lia.
  destruct (Zdigits2_bounds m2 Hm2) as (Hd2 & Hlo2 & Hhi2).
  set (k2 := Z.max 0 (fexp64 (Zdigits2 m2 + (e + k)) - (e + k))) in *.
  assert (Hk2 : 0 <= k2 < Zdigits2 m2) by (unfold k2; rewrite fexp64_eq; lia).
  assert (Hp2 : 0 < 2 ^ k2) by (apply Z.pow_pos_nonneg; lia).
  assert (Hm3 : 1 <= m2 / 2 ^ k2).
  { apply Z.div_le_lower_bound; trivial.
    assert (2 ^ k2 <= 2 ^ (Zdigits2 m2 - 1)) by (apply Z.pow_le_mono_r; lia). lia. }
  unfold round_result. destruct (m2 / 2 ^ k2) as [|p|p]; try lia.
  destruct (_ <=? _); [left; eauto | now right].
Qed.

(** rounding is the identity on what is already representable *)
Lemma binary_round_aux_exact (s : bool) (m : positive) (e k : Z) :
  0 <= k -> bounded prec emax m e = true ->
  binary_round_aux prec emax s (Z.pos m * 2 ^ k) (e - k) loc_Exact = S754_finite s m e.
Proof.
  intros Hk Hbd. destruct (bounded_inv m e Hbd) as [Hc He].
  assert (Hp : 0 < 2 ^ k) by (apply Z.pow_pos_nonneg; lia).
  destruct (binary_round_aux_shape s (Z.pos m * 2 ^ k) (e - k) loc_Exact) as (m2 & _ & Hex & ->);
    [lia|].
  cbv zeta in Hex.
  rewrite Zdigits2_shiftl in * by lia.
  change (Zdigits2 (Z.pos m)) with (Z.pos (digits2_pos m)) in *.
  replace (Z.pos (digits2_pos m) + k + (e - k)) with (Z.pos (digits2_pos m) + e) in * by lia.
  rewrite Hc in *.
  replace (Z.max 0 (e - (e - k))) with k in * by lia.
  rewrite Z.div_mul in Hex by lia.
  rewrite Z.mod_mul in Hex by lia.
  rewrite (Hex eq_refl eq_refl).
  change (Zdigits2 (Z.pos m)) with (Z.pos (digits2_pos m)).
  replace (Z.pos (digits2_pos m) + (e - k + k)) with (Z.pos (digits2_pos m) + e) by lia.
  rewrite Hc. replace (Z.max 0 (e - (e - k + k))) with 0 by lia.
  rewrite Z.div_1_r. unfold round_result.
  replace (e - k + k + 0) with e by lia.
  replace (e <=? emax - prec) with true; trivial.
  symmetry. apply Z.leb_le. unfold emax, prec. lia.
Qed.

(** a mantissa bounded by a representable number does not round above it *)
Lemma binary_round_aux_le (q e : Z) (l : location) (mB : positive) (eB : Z) :
  0 <= q -> e <= eB -> bounded prec emax mB eB = true ->
  q <= Z.pos mB * 2 ^ (eB - e) ->
  (loc_inexact l = true -> q < Z.pos mB * 2 ^ (eB - e)) ->
  SFleb (binary_round_aux prec emax false q e l) (S754_finite false mB eB) = true.
Proof.
  intros Hq He Hbd Hle Hlt. destruct (bounded_inv mB eB Hbd) as [Hc HeB].
  destruct (binary_round_aux_shape false q e l Hq) as (m2 & Hb & Hex & ->).
  cbv zeta in Hb, Hex.
  pose proof (digits2_pos_bounds mB) as HdB.
  set (dB := Z.pos (digits2_pos mB)) in *.
  assert (HdB53 : dB <= 53) by (rewrite fexp64_eq in Hc; lia).
  (* a general fact: what is bounded by B aligns no higher than B *)
  assert (L : forall x e0, 0 < x -> e0 <= eB -> x <= Z.pos mB * 2 ^ (eB - e0) ->
              fexp64 (Zdigits2 x + e0) <= eB).
  { intros x e0 Hx He0 Hxle.
    assert (Zdigits2 x <= Zdigits2 (Z.pos mB * 2 ^ (eB - e0))) by (apply Zdigits2_mono; lia).
    rewrite Zdigits2_shiftl in H by lia.
    change (Zdigits2 (Z.pos mB)) with dB in H.
    rewrite fexp64_eq in *. lia. }
  set (k := Z.max 0 (fexp64 (Zdigits2 q + e) - e)) in *.
  assert (Hk : 0 <= k) by (unfold k; lia).
  assert (Hp : 0 < 2 ^ k) by (apply Z.pow_pos_nonneg; lia).
  assert (He1 : e + k <= eB).
  { destruct (Z.eq_dec q 0) as [->|Hq0].
    - unfold k. simpl Zdigits2. rewrite fexp64_eq. rewrite fexp64_eq in Hc. lia.
    - specialize (L q e ltac:(lia) He Hle). unfold k. lia. }
  set (MB := Z.pos mB * 2 ^ (eB - (e + k))).
  assert (HMB : Z.pos mB * 2 ^ (eB - e) = MB * 2 ^ k).
  { unfold MB. rewrite <- Z.mul_assoc, <- Z.pow_add_r by lia. do 2 f_equal. lia. }
  rewrite HMB in Hle, Hlt.
  assert (Hm1 : q / 2 ^ k <= MB) by (apply Z.div_le_upper_bound; lia).
  assert (Hm2 : m2 <= MB).
  { destruct (Z.eq_dec m2 (q / 2 ^ k)) as [->|Hne]; trivial.
    assert (Hinex : loc_inexact l = true \/ q mod 2 ^ k <> 0).
    { destruct (loc_inexact l) eqn:El; [now left|right]. intros Hz. apply Hne. now apply Hex. }
    assert (q < MB * 2 ^ k).
    { destruct Hinex as [Hi|Hi]; [now apply Hlt|].
      destruct (Z.eq_dec q (MB * 2 ^ k)) as [Heq|]; [|lia].
      rewrite Heq, Z.mod_mul in Hi; lia. }
    assert (q / 2 ^ k < MB) by (apply Z.div_lt_upper_bound; lia). lia. }
  assert (Hm1pos : 0 <= q / 2 ^ k) by (apply Z.div_pos; lia).
  set (k2 := Z.max 0 (fexp64 (Zdigits2 m2 + (e + k)) - (e + k))) in *.
  assert (Hk2 : 0 <= k2) by (unfold k2; lia).
  assert (Hp2 : 0 < 2 ^ k2) by (apply Z.pow_pos_nonneg; lia).
  assert (He3 : e + k + k2 <= eB).
  { destruct (Z.eq_dec m2 0) as [->|Hm0].
    - unfold k2. simpl Zdigits2. rewrite fexp64_eq. rewrite fexp64_eq in Hc. lia.
    - specialize (L m2 (e + k) ltac:(lia) He1 Hm2). unfold k2. lia. }
  assert (Hm3 : 0 <= m2 / 2 ^ k2) by (apply Z.div_pos; lia).
  unfold round_result. destruct (m2 / 2 ^ k2) as [|m3|m3] eqn:E3; try lia; trivial.
  replace (e + k + k2 <=? emax - prec) with true
    by (symmetry; apply Z.leb_le; unfold emax, prec; lia).
  unfold SFleb, SFcompare.
  destruct (Z.compare_spec (e + k + k2) eB) as [Heq|Hlt'|Hgt]; trivial; [|lia].
  assert (Z.pos m3 <= Z.pos mB).
  { rewrite <- E3. apply Z.div_le_upper_bound; trivial.
    unfold MB in Hm2. replace (eB - (e + k)) with k2 in Hm2 by lia. lia. }
  rewrite Pos.compare_cont_spec. simpl.
  destruct (Pos.compare_spec m3 mB); trivial; lia.
Qed.

(** ** Integers as doubles, products and quotients *)

Lemma shl_align_spec (mx : positive) (ex ex' : Z) :
  let '(mz, ez) := shl_align mx ex ex' in
  ez = Z.min ex ex' /\ Z.pos mz = Z.pos mx * 2 ^ (ex - ez).
Proof.
  unfold shl_align. destruct (ex' - ex) as [|d|d] eqn:E.
  - replace (Z.min ex ex') with ex by lia. rewrite Z.sub_diag. simpl. split; lia.
  - replace (Z.min ex ex') with ex by lia. rewrite Z.sub_diag. simpl. split; lia.
  - replace (Z.min ex ex') with ex' by lia. split; trivial.
    change (Pos.iter xO mx d) with (shift_pos d mx).
    rewrite shift_pos_correct.
    replace (ex - ex') with (Z.pos d) by lia.
    change (2 ^ Z.pos d) with (Z.pow_pos 2 d). lia.
Qed.

Lemma SFint_bounded (z : Z) :
  0 < z < 2 ^ 53 ->
  Z.pos (Z.to_pos (z * 2 ^ (53 - Zdigits2 z))) = z * 2 ^ (53 - Zdigits2 z) /\
  Zdigits2 z <= 53 /\
  bounded prec emax (Z.to_pos (z * 2 ^ (53 - Zdigits2 z))) (Zdigits2 z - 53) = true.
Proof.
  intros Hz. destruct (Zdigits2_bounds z) as (Hd & Hlo & Hhi); [lia|].
  assert (Hd53 : Zdigits2 z <= 53).
  { destruct (Z.le_gt_cases (Zdigits2 z) 53); trivial.
    assert (2 ^ 53 <= 2 ^ (Zdigits2 z - 1)) by (apply Z.pow_le_mono_r; lia). lia. }
  assert (Hp : 0 < 2 ^ (53 - Zdigits2 z)) by (apply Z.pow_pos_nonneg; lia).
  assert (Hpos : 0 < z * 2 ^ (53 - Zdigits2 z)) by lia.
  rewrite Z2Pos.id by trivial. repeat split; trivial.
  unfold bounded, canonical_mantissa.
  change (Z.pos (digits2_pos ?p)) with (Zdigits2 (Z.pos p)).
  rewrite Z2Pos.id by trivial. rewrite Zdigits2_shiftl by lia.
  rewrite fexp64_eq. apply andb_true_iff. rewrite Z.eqb_eq, Z.leb_le.
  unfold emax, prec. lia.
Qed.

Lemma binary_normalize_int (z : Z) :
  0 < z < 2 ^ 53 -> binary_normalize prec emax z 0 false = SFint z.
Proof.
  intros Hz. destruct (SFint_bounded z Hz) as (Hid & Hd53 & Hbd).
  destruct z as [|p|p]; try lia. unfold binary_normalize, binary_round.
  pose proof (shl_align_spec p 0 (fexp64 (Z.pos (digits2_pos p) + 0))) as Hs.
  destruct (shl_align p 0 (fexp64 (Z.pos (digits2_pos p) + 0))) as [mz ez].
  destruct Hs as [Hez Hmz].
  change (Z.pos (digits2_pos p)) with (Zdigits2 (Z.pos p)) in *.
  rewrite fexp64_eq, Z.add_0_r in Hez.
  destruct (Zdigits2_bounds (Z.pos p)) as (Hd & _); [lia|].
  assert (Hez' : ez = Zdigits2 (Z.pos p) - 53) by lia.
  pose proof (binary_round_aux_exact false (Z.to_pos (Z.pos p * 2 ^ (53 - Zdigits2 (Z.pos p))))
                (Zdigits2 (Z.pos p) - 53) 0 ltac:(lia) Hbd) as Hex.
  rewrite Hid, Z.pow_0_r, Z.mul_1_r, Z.sub_0_r in Hex.
  rewrite Hmz, Hez'. replace (0 - (Zdigits2 (Z.pos p) - 53)) with (53 - Zdigits2 (Z.pos p)) by lia.
  exact Hex.
Qed.

(** multiplying two integers exactly, while the product stays below 2^53 *)
Lemma SFmul_int (a b : Z) :
  0 < a -> 0 < b -> a * b < 2 ^ 53 ->
  SFmul prec emax (SFint a) (SFint b) = SFint (a * b).
Proof.
  intros Ha Hb Hab.
  assert (Ha53 : a < 2 ^ 53) by nia. assert (Hb53 : b < 2 ^ 53) by nia.
  destruct (SFint_bounded a ltac:(lia)) as (Hida & Hda & _).
  destruct (SFint_bounded b ltac:(lia)) as (Hidb & Hdb & _).
  destruct (SFint_bounded (a * b) ltac:(lia)) as (Hidc & Hdc & Hbdc).
  destruct (Zdigits2_bounds a Ha) as (Hda0 & _).
  destruct (Zdigits2_bounds b Hb) as (Hdb0 & _).
  assert (Hdab : Zdigits2 a + Zdigits2 b - 1 <= Zdigits2 (a * b)).
  { destruct (Zdigits2_bounds a Ha) as (_ & Hla & _).
    destruct (Zdigits2_bounds b Hb) as (_ & Hlb & _).
    destruct (Zdigits2_bounds (a * b) ltac:(lia)) as (Hdc0 & _ & Hhc).
    destruct (Z.le_gt_cases (Zdigits2 a + Zdigits2 b - 1) (Zdigits2 (a * b))); trivial. exfalso.
    assert (2 ^ Zdigits2 (a * b) <= 2 ^ (Zdigits2 a - 1 + (Zdigits2 b - 1)))
      by (apply Z.pow_le_mono_r; lia).
    rewrite Z.pow_add_r in H0 by lia.
    assert (0 < 2 ^ (Zdigits2 a - 1)) by (apply Z.pow_pos_nonneg; lia).
    assert (0 < 2 ^ (Zdigits2 b - 1)) by (apply Z.pow_pos_nonneg; lia).
    nia. }
  unfold SFint at 1 2. unfold SFmul. simpl xorb.
  set (k := 53 - Zdigits2 a + (53 - Zdigits2 b) - (53 - Zdigits2 (a * b))).
  pose proof (binary_round_aux_exact false _ _ k ltac:(unfold k; lia) Hbdc) as Hex.
  rewrite Hidc in Hex. unfold SFint. rewrite <- Hex. f_equal.
  - rewrite Pos2Z.inj_mul, Hida, Hidb.
    assert (Hpow : 2 ^ (53 - Zdigits2 (a * b)) * 2 ^ k
                   = 2 ^ (53 - Zdigits2 a) * 2 ^ (53 - Zdigits2 b)).
    { rewrite <- !Z.pow_add_r by (unfold k; lia). f_equal. unfold k. lia. }
    transitivity (a * b * (2 ^ (53 - Zdigits2 (a * b)) * 2 ^ k)); [rewrite Hpow|]; ring.
  - unfold k. lia.
Qed.

Lemma new_location_inexact (n r : Z) :
  loc_inexact (new_location n r) = negb (r =? 0).
Proof.
  unfold new_location, new_location_even, new_location_odd.
  destruct (Z.even n), (r =? 0); reflexivity.
Qed.

Lemma SFdiv_core_binary_spec (mx my : positive) (ex ey : Z) :
  let e' := Z.min (fexp64 (Zdigits2 (Z.pos mx) + ex - (Zdigits2 (Z.pos my) + ey))) (ex - ey) in
  let m' := Z.pos mx * 2 ^ (ex - ey - e') in
  SFdiv_core_binary prec emax (Z.pos mx) ex (Z.pos my) ey =
  (m' / Z.pos my, e', new_location (Z.pos my) (m' mod Z.pos my)).
Proof.
  cbv zeta. unfold SFdiv_core_binary.
  set (e' := Z.min _ _).
  assert (Hs : 0 <= ex - ey - e') by (unfold e'; lia).
  assert (Hm : match ex - ey - e' with
               | 0 => Z.pos mx
               | Z.pos _ => Z.shiftl (Z.pos mx) (ex - ey - e')
               | Z.neg _ => 0
               end = Z.pos mx * 2 ^ (ex - ey - e')).
  { destruct (ex - ey - e') as [|s|s] eqn:E;
      [ simpl; lia | now rewrite Z.shiftl_mul_pow2 by lia | lia ]. }
  rewrite Hm. unfold Z.div, Z.modulo.
  now destruct (Z.div_eucl _ _).
Qed.

(** the quotient of two doubles does not round above a double that bounds
    the exact quotient *)
Lemma SFdiv_le (mx my mB : positive) (ex ey eB : Z) :
  bounded prec emax mB eB = true ->
  let e' := Z.min (fexp64 (Zdigits2 (Z.pos mx) + ex - (Zdigits2 (Z.pos my) + ey))) (ex - ey) in
  e' <= eB ->
  Z.pos mx * 2 ^ (ex - ey - e') <= Z.pos my * (Z.pos mB * 2 ^ (eB - e')) ->
  SFleb (SFdiv prec emax (S754_finite false mx ex) (S754_finite false my ey))
        (S754_finite false mB eB) = true.
Proof.
  intros Hbd e' He' Hle. unfold SFdiv.
  pose proof (SFdiv_core_binary_spec mx my ex ey) as Hc. cbv zeta in Hc.
  fold e' in Hc. rewrite Hc. simpl xorb.
  set (m' := Z.pos mx * 2 ^ (ex - ey - e')) in *.
  assert (Hs : 0 <= ex - ey - e') by (unfold e'; lia).
  assert (Hp : 0 < 2 ^ (ex - ey - e')) by (apply Z.pow_pos_nonneg; lia).
  assert (Hm' : 0 < m') by (unfold m'; lia).
  pose proof (Z.div_mod m' (Z.pos my) ltac:(lia)) as Hdm.
  pose proof (Z.mod_pos_bound m' (Z.pos my) ltac:(lia)) as Hmod.
  set (Bd := Z.pos mB * 2 ^ (eB - e')) in *.
  apply binary_round_aux_le; trivial.
  - apply Z.div_pos; lia.
  - apply Z.div_le_upper_bound; lia.
  - rewrite new_location_inexact. intros Hne.
    apply negb_true_iff, Z.eqb_neq in Hne.
    fold Bd. nia.
Qed.

Lemma SFdiv_nonneg (mx my : positive) (ex ey : Z) :
  SFleb (S754_zero false)
        (SFdiv prec emax (S754_finite false mx ex) (S754_finite false my ey)) = true.
Proof.
  unfold SFdiv.
  pose proof (SFdiv_core_binary_spec mx my ex ey) as Hc. cbv zeta in Hc.
  rewrite Hc. simpl xorb. apply binary_round_aux_nonneg.
  apply Z.div_pos; [|lia].
  apply Z.mul_nonneg_nonneg; [lia|]. apply Z.pow_nonneg. lia.
Qed.

(** [a / n <= c] on integers below 2^53 carries over to the doubles *)
Lemma SFdiv_int_le (a n c : Z) :
  0 < a < 2 ^ 53 -> 0 < n < 2 ^ 53 -> 0 < c < 2 ^ 53 -> a <= n * c ->
  SFleb (SFdiv prec emax (SFint a) (SFint n)) (SFint c) = true.
Proof.
  intros Ha Hn Hc Hle.
  destruct (SFint_bounded a Ha) as (Hida & Hda & _).
  destruct (SFint_bounded n Hn) as (Hidn & Hdn & _).
  destruct (SFint_bounded c Hc) as (Hidc & Hdc & Hbdc).
  destruct (Zdigits2_bounds a ltac:(lia)) as (Hda0 & Hla & Hha).
  destruct (Zdigits2_bounds n ltac:(lia)) as (Hdn0 & Hln & Hhn).
  destruct (Zdigits2_bounds c ltac:(lia)) as (Hdc0 & Hlc & Hhc).
  (* digits a <= digits n + digits c *)
  assert (Hdig : Zdigits2 a <= Zdigits2 n + Zdigits2 c).
  { destruct (Z.le_gt_cases (Zdigits2 a) (Zdigits2 n + Zdigits2 c)); trivial. exfalso.
    assert (2 ^ (Zdigits2 n + Zdigits2 c) <= 2 ^ (Zdigits2 a - 1))
      by (apply Z.pow_le_mono_r; lia).
    rewrite Z.pow_add_r in H0 by lia. nia. }
  unfold SFint. apply SFdiv_le; trivial; cbv zeta;
    change (Z.pos (digits2_pos ?p)) with (Zdigits2 (Z.pos p));
    rewrite ?Hida, ?Hidn, ?Hidc, !Zdigits2_shiftl by lia;
    rewrite fexp64_eq.
  - lia.
  - set (da := Zdigits2 a) in *. set (dn := Zdigits2 n) in *. set (dc := Zdigits2 c) in *.
    replace (Z.min (Z.max (da + (53 - da) + (da - 53) - (dn + (53 - dn) + (dn - 53)) - 53) (-1074))
                   (da - 53 - (dn - 53))) with (da - dn - 53) by lia.
    replace (da - 53 - (dn - 53) - (da - dn - 53)) with 53 by lia.
    replace (dc - 53 - (da - dn - 53)) with (dc + dn - da) by lia.
    replace (n * 2 ^ (53 - dn) * (c * 2 ^ (53 - dc) * 2 ^ (dc + dn - da)))
      with ((n * c) * (2 ^ (53 - dn) * 2 ^ (53 - dc) * 2 ^ (dc + dn - da))) by ring.
    rewrite <- !Z.pow_add_r by lia.
    replace (53 - dn + (53 - dc) + (dc + dn - da)) with (53 - da + 53) by lia.
    rewrite <- Z.mul_assoc, <- Z.pow_add_r by lia.
    apply Z.mul_le_mono_nonneg_r; trivial. apply Z.pow_nonneg. lia.
Qed.

Lemma Prim2SF_100 : Prim2SF 100%float = SFint 100.
Proof. vm_compute. reflexivity. Qed.

Lemma Prim2SF_0 : Prim2SF 0%float = S754_zero false.
Proof. reflexivity. Qed.

Lemma Prim2SF_inf : Prim2SF infinity = S754_infinity false.
Proof. reflexivity. Qed.

Lemma Prim2SF_nan : Prim2SF nan = S754_nan.
Proof. reflexivity. Qed.

Lemma Prim2SF_Fint (z : Z) : 0 < z < 2 ^ 53 -> Prim2SF (Fint z) = SFint z.
Proof.
  intros Hz. apply Prim2SF_SF2Prim. apply (SFint_bounded z Hz).
Qed.

Lemma float_of_int_small (z : Z) :
  0 < z < 2 ^ 53 -> float_of_int z = Ok (Fint z).
Proof.
  intros Hz. unfold float_of_int. rewrite binary_normalize_int by trivial. reflexivity.
Qed.

Lemma Fint_nonzero (z : Z) : 0 < z < 2 ^ 53 -> (Fint z =? 0)%float = false.
Proof.
  intros Hz. rewrite FloatAxioms.eqb_spec, Prim2SF_Fint, Prim2SF_0 by trivial. reflexivity.
Qed.

(** [100.0 * w / n] for [0 <= w <= n <= 2^46] *)
Lemma percent_bounds (w n : Z) :
  0 < w <= n -> n <= 2 ^ 46 ->
  let f := (100 * Fint w / Fint n)%float in
  (0 <=? f)%float = true /\ (f <=? 100)%float = true.
Proof.
  intros Hw Hn f.
  assert (H46 : 2 ^ 46 * 100 < 2 ^ 53) by reflexivity.
  assert (Hf : Prim2SF f = SFdiv prec emax (SFint (100 * w)) (SFint n)).
  { unfold f. rewrite div_spec, mul_spec, Prim2SF_100, !Prim2SF_Fint by lia.
    unfold SF64div, SF64mul. rewrite SFmul_int by lia. reflexivity. }
  rewrite !FloatAxioms.leb_spec, Hf, Prim2SF_0, Prim2SF_100. split.
  - apply SFdiv_nonneg.
  - apply SFdiv_int_le; lia.
Qed.

(** ** Sums of positive numbers *)

Lemma SFltb_0_pos (x : spec_float) : SFltb (S754_zero false) x = SFpos x.
Proof. destruct x as [[|]|[|]| |[|] m e]; reflexivity. Qed.

Lemma binary_round_pos (p : positive) (e : Z) :
  -1074 <= e -> SFpos (binary_round prec emax false p e) = true.
Proof.
  intros He. unfold binary_round.
  pose proof (shl_align_spec p e (fexp64 (Z.pos (digits2_pos p) + e))) as Hs.
  destruct (shl_align p e (fexp64 (Z.pos (digits2_pos p) + e))) as [mz ez].
  destruct Hs as [Hez _].
  assert (-1074 <= ez) by (rewrite Hez, fexp64_eq; lia).
  destruct (binary_round_aux_pos (Z.pos mz) ez loc_Exact) as [(m & e' & ->)| ->];
    trivial; lia.
Qed.

Lemma SFadd_pos (x y : spec_float) :
  valid_binary x = true -> valid_binary y = true ->
  SFacc x = true -> SFpos y = true -> SFpos (SFadd prec emax x y) = true.
Proof.
  intros Vx Vy Hx Hy.
  destruct x as [[|]|[|]| |[|] mx ex]; try discriminate;
  destruct y as [[|]|[|]| |[|] my ey]; try discriminate; trivial.
  unfold SFadd. simpl cond_Zopp.
  apply bounded_inv in Vx, Vy. rewrite fexp64_eq in Vx, Vy.
  rewrite <- Pos2Z.inj_add. unfold binary_normalize.
  apply binary_round_pos. lia.
Qed.

Lemma SFadd_inf_r (x : spec_float) :
  SFacc x = true -> SFadd prec emax x (S754_infinity false) = S754_infinity false.
Proof. destruct x as [[|]|[|]| |[|] mx ex]; try discriminate; reflexivity. Qed.

Lemma SFadd_inf_l (y : spec_float) :
  SFpos y = true -> SFadd prec emax (S754_infinity false) y = S754_infinity false.
Proof. destruct y as [[|]|[|]| |[|] my ey]; try discriminate; reflexivity. Qed.

Lemma is_pos_spec (f : float) : is_pos f = SFpos (Prim2SF f).
Proof. unfold is_pos. now rewrite ltb_spec, Prim2SF_0, SFltb_0_pos. Qed.

Lemma is_pos_acc (f : float) : is_pos f = true -> is_acc f = true.
Proof.
  rewrite is_pos_spec. unfold is_acc. destruct (Prim2SF f) as [[|]|[|]| |[|] m e]; trivial.
Qed.

Lemma add_pos (g R : float) :
  is_acc g = true -> is_pos R = true -> is_pos (g + R) = true.
Proof.
  rewrite !is_pos_spec, add_spec. unfold is_acc. intros Hg HR.
  apply SFadd_pos; trivial; apply Prim2SF_valid.
Qed.

Lemma add_inf_r (g : float) : is_acc g = true -> (g + infinity)%float = infinity.
Proof.
  intros Hg. apply Prim2SF_inj. rewrite add_spec, Prim2SF_inf. now apply SFadd_inf_r.
Qed.

Lemma add_inf_l (R : float) : is_pos R = true -> (infinity + R)%float = infinity.
Proof.
  rewrite is_pos_spec. intros HR. apply Prim2SF_inj.
  rewrite add_spec, Prim2SF_inf. now apply SFadd_inf_l.
Qed.

Lemma opp_neg_pos (R : float) : (R <? 0)%float = true -> is_pos (- R) = true.
Proof.
  rewrite is_pos_spec, ltb_spec, opp_spec, Prim2SF_0.
  destruct (Prim2SF R) as [[|]|[|]| |[|] m e]; trivial.
Qed.

Lemma opp_neg_abs (R : float) : (R <? 0)%float = true -> (- R)%float = abs R.
Proof.
  rewrite ltb_spec, Prim2SF_0. intros H. apply Prim2SF_inj.
  rewrite opp_spec, abs_spec.
  destruct (Prim2SF R) as [[|]|[|]| |[|] m e]; trivial; discriminate.
Qed.

Lemma is_pos_not_neg (R : float) : is_pos R = true -> (R <? 0)%float = false.
Proof.
  rewrite is_pos_spec, ltb_spec, Prim2SF_0.
  destruct (Prim2SF R) as [[|]|[|]| |[|] m e]; trivial; discriminate.
Qed.


Lemma is_acc_eqb_0 (g : float) :
  is_acc g = true -> (g =? 0)%float = negb (is_pos g).
Proof.
  rewrite is_pos_spec, FloatAxioms.eqb_spec, Prim2SF_0. unfold is_acc.
  destruct (Prim2SF g) as [[|]|[|]| |[|] m e]; try discriminate; trivial.
Qed.

(** infinity over a positive finite number; over infinity *)
Lemma div_inf_finite (l : float) :
  is_pos l = true -> is_infinity l = false -> (infinity / l)%float = infinity.
Proof.
  rewrite is_pos_spec. unfold is_infinity.
  rewrite FloatAxioms.eqb_spec, abs_spec, Prim2SF_inf.
  intros Hp Hi. apply Prim2SF_inj. rewrite div_spec, Prim2SF_inf.
  destruct (Prim2SF l) as [[|]|[|]| |[|] m e]; try discriminate; reflexivity.
Qed.

Lemma is_acc_infinity (l : float) :
  is_acc l = true -> is_infinity l = true -> l = infinity.
Proof.
  unfold is_acc, is_infinity. rewrite FloatAxioms.eqb_spec, abs_spec, Prim2SF_inf.
  intros Ha Hi. apply Prim2SF_inj. rewrite Prim2SF_inf.
  destruct (Prim2SF l) as [[|]|[|]| |[|] m e]; try discriminate; reflexivity.
Qed.

(** * The script *)

(** ** The result monad *)

Lemma bind_Ok {A B : Type} (c : result A) (k : A -> result B) (b : B) :
  bind c k = Ok b -> exists a, c = Ok a /\ k a = Ok b.
Proof. destruct c as [a|e]; simpl; [eauto | discriminate]. Qed.

Ltac inv_bind H :=
  let a := fresh "a" in
  let E := fresh "E" in
  apply bind_Ok in H; destruct H as (a & E & H).

Lemma mapM_returns {A B : Type} (f : A -> result B) (xs : list A) :
  Forall (fun x => returns (f x)) xs ->
  exists ys, mapM f xs = Ok ys /\ List.length ys = List.length xs.
Proof.
  induction 1 as [|x xs [y Hy] _ (ys & Hys & Hlen)]; simpl.
  - now exists [].
  - rewrite Hy, Hys. simpl. exists (y :: ys). simpl. auto.
Qed.

Lemma mapM_length {A B : Type} (f : A -> result B) (xs : list A) (ys : list B) :
  mapM f xs = Ok ys -> List.length ys = List.length xs.
Proof.
  revert ys. induction xs as [|x xs IH]; simpl; intros ys H.
  - now inversion H.
  - inv_bind H. inv_bind H. inversion H. simpl. f_equal. now apply IH.
Qed.

Lemma mapM_app {A B : Type} (f : A -> result B) (xs1 xs2 : list A) (ys : list B) :
  mapM f (xs1 ++ xs2) = Ok ys ->
  exists ys1 ys2, mapM f xs1 = Ok ys1 /\ mapM f xs2 = Ok ys2 /\ ys = ys1 ++ ys2.
Proof.
  revert ys. induction xs1 as [|x xs1 IH]; simpl; intros ys H.
  - exists [], ys. auto.
  - inv_bind H. inv_bind H. inversion H; subst.
    destruct (IH _ E0) as (ys1 & ys2 & H1 & H2 & ->).
    exists (a :: ys1), ys2. rewrite E, H1. auto.
Qed.

(** ** Lookups *)

Lemma nested_get_returns (d : list (string * pyval)) (outer inner : string) :
  field_ok d outer = true -> returns (nested_get (PDict d) outer inner).
Proof.
  unfold field_ok, nested_get, py_get, py_or, returns. simpl.
  destruct (dict_get d outer) as [v|]; simpl; [|eauto].
  destruct v as [ |b|z|f|s|l|d']; simpl; intros H;
    try (apply negb_true_iff in H; rewrite H); eauto.
  destruct d'; eauto.
Qed.

Lemma nested_get_raises (r : pyval) (outer inner : string) (v : pyval) :
  py_get r outer = Ok v -> mapping_or_falsy v = false ->
  nested_get r outer inner = Raise AttributeError.
Proof.
  unfold nested_get. intros -> H. simpl. unfold py_or.
  destruct v; simpl in *; try discriminate;
    apply negb_false_iff in H; rewrite H; reflexivity.
Qed.

Lemma readable_gets (outer : string) (r : pyval) :
  readable outer r = true -> forall inner, returns (nested_get r outer inner).
Proof.
  destruct r as [ | | | | | |d]; try discriminate. intros H inner.
  now apply nested_get_returns.
Qed.

Lemma countable_record_gets (r : pyval) :
  countable_record r = true ->
  (forall inner, returns (nested_get r "simulation" inner)) /\
  (forall inner, returns (nested_get r "risk" inner)) /\
  exists x, nested_get r "simulation" "exitType" = Ok x /\ hashable x = true.
Proof.
  unfold countable_record. rewrite !andb_true_iff. intros [[Hs Hr] He].
  repeat split; try now apply readable_gets.
  destruct (nested_get r "simulation" "exitType"); [eauto | discriminate].
Qed.

(** ** Counting *)

Lemma len_nonneg {A : Type} (xs : list A) : 0 <= len xs.
Proof. unfold len. lia. Qed.

Lemma len_cons {A : Type} (x : A) (xs : list A) : len (x :: xs) = 1 + len xs.
Proof. unfold len. simpl List.length. lia. Qed.

Lemma len_app {A : Type} (xs ys : list A) : len (xs ++ ys) = len xs + len ys.
Proof. unfold len. rewrite length_app. lia. Qed.

Lemma len_filter_le {A : Type} (f : A -> bool) (xs : list A) :
  len (filter f xs) <= len xs.
Proof. unfold len. pose proof (filter_length_le f xs). lia. Qed.

Lemma count_result_inv (rows : list pyval) (s : string) (k : Z) :
  count_result rows s = Ok k -> k = len (filter (has_result s) rows).
Proof.
  revert k. induction rows as [|r rows IH]; simpl; intros k H.
  - now inversion H.
  - inv_bind H. inv_bind H. inversion H; subst. simpl filter.
    replace (has_result s r) with (eq_str a s) by (unfold has_result; now rewrite E).
    rewrite (IH _ E0).
    destruct (eq_str a s); [now rewrite len_cons | reflexivity].
Qed.

Lemma count_result_returns (rows : list pyval) (s : string) :
  Forall (fun r => returns (nested_get r "simulation" "result")) rows ->
  count_result rows s = Ok (len (filter (has_result s) rows)).
Proof.
  induction 1 as [|r rows [x Hx] _ IH]; simpl; trivial.
  rewrite Hx, IH. simpl.
  replace (has_result s r) with (eq_str x s) by (unfold has_result; now rewrite Hx).
  destruct (eq_str x s); [now rewrite len_cons | reflexivity].
Qed.

Lemma Counter_returns (f : pyval -> result pyval) (rows : list pyval) :
  Forall (fun r => exists x, f r = Ok x /\ hashable x = true) rows ->
  exists c, Counter f rows = Ok c /\ len c = len rows.
Proof.
  induction 1 as [|r rows (x & Hx & Hh) _ (c & Hc & Hlen)]; simpl.
  - now exists [].
  - rewrite Hx. simpl. rewrite Hh, Hc. simpl. exists (x :: c).
    rewrite !len_cons. split; [trivial | lia].
Qed.

Lemma Counter_length (f : pyval -> result pyval) (rows c : list pyval) :
  Counter f rows = Ok c -> len c = len rows.
Proof.
  revert c. induction rows as [|r rows IH]; simpl; intros c H.
  - now inversion H.
  - inv_bind H. destruct (hashable a); [|discriminate].
    inv_bind H. inversion H. rewrite !len_cons. f_equal. now apply IH.
Qed.

Lemma counter_get_bounds (c : list pyval) (s : string) :
  0 <= counter_get c s <= len c.
Proof. unfold counter_get. split; [apply len_nonneg | apply len_filter_le]. Qed.

(** ** Conversions and divisions that cannot raise *)

Lemma float_of_int_0 : float_of_int 0 = Ok 0%float.
Proof. reflexivity. Qed.

Lemma float_of_int_returns (z : Z) :
  0 <= z < 2 ^ 53 -> exists f, float_of_int z = Ok f /\ (0 < z -> f = Fint z).
Proof.
  intros Hz. destruct (Z.eq_dec z 0) as [->|Hne].
  - exists 0%float. split; [reflexivity | lia].
  - exists (Fint z). split; [apply float_of_int_small; lia | trivial].
Qed.

Lemma fdiv_int_small (x : float) (n : Z) :
  0 < n < 2 ^ 53 -> fdiv_int x n = Ok (x / Fint n)%float.
Proof.
  intros Hn. unfold fdiv_int. rewrite float_of_int_small by trivial. simpl.
  unfold fdiv. now rewrite Fint_nonzero.
Qed.

Lemma pct_zero (k : Z) : pct k 0 = Ok nan.
Proof. reflexivity. Qed.

Lemma pct_small (k n : Z) :
  0 <= k < 2 ^ 53 -> 0 < n < 2 ^ 53 ->
  exists fk, float_of_int k = Ok fk /\ pct k n = Ok (100 * fk / Fint n)%float.
Proof.
  intros Hk Hn. destruct (float_of_int_returns k Hk) as (fk & Hfk & _).
  exists fk. split; trivial. unfold pct.
  replace (n =? 0) with false by (symmetry; apply Z.eqb_neq; lia).
  rewrite Hfk. simpl. now apply fdiv_int_small.
Qed.

(** [100.0 * k / n] stays within 0 and 100 for [0 <= k <= n <= 2^46] *)
Lemma pct_bounds (k n : Z) (f : float) :
  0 <= k <= n -> 0 < n <= 2 ^ 46 -> pct k n = Ok f ->
  (0 <=? f)%float = true /\ (f <=? 100)%float = true.
Proof.
  intros Hk Hn. assert (H46 : 2 ^ 46 < 2 ^ 53) by reflexivity.
  destruct (pct_small k n ltac:(lia) ltac:(lia)) as (fk & Hfk & ->).
  intros Hf. inversion Hf; subst f; clear Hf.
  destruct (Z.eq_dec k 0) as [->|Hne].
  - rewrite float_of_int_0 in Hfk. inversion Hfk; subst fk.
    assert (E : Prim2SF (100 * 0 / Fint n)%float = S754_zero false).
    { rewrite div_spec, Prim2SF_Fint by lia. reflexivity. }
    rewrite !FloatAxioms.leb_spec, E. split; reflexivity.
  - rewrite float_of_int_small in Hfk by lia. inversion Hfk; subst fk.
    apply percent_bounds; lia.
Qed.

(** ** The safe-mean policy *)

Section Facts.

Variable p : string -> option float.

Lemma survivors_cons (v : pyval) (xs : list pyval) :
  survivors p (v :: xs) =
  match try_finite p v with Some y => [y] | None => [] end ++ survivors p xs.
Proof. reflexivity. Qed.

Lemma fold_keep_finite (xs : list pyval) (acc : list float) :
  fold_left (keep_finite p) xs acc = acc ++ survivors p xs.
Proof.
  revert acc. induction xs as [|v xs IH]; intros acc.
  - simpl. now rewrite app_nil_r.
  - cbn [fold_left]. rewrite IH, survivors_cons. unfold keep_finite, try_finite.
    destruct (py_float p v) as [y|e]; simpl; trivial.
    destruct (is_finite y); simpl; trivial. now rewrite <- app_assoc.
Qed.

Lemma finite_values_survivors (xs : list pyval) :
  finite_values p xs = survivors p xs.
Proof. unfold finite_values. now rewrite fold_keep_finite. Qed.

Lemma survivors_app (xs ys : list pyval) :
  survivors p (xs ++ ys) = survivors p xs ++ survivors p ys.
Proof. unfold survivors. apply flat_map_app. Qed.

Lemma survivors_length (xs : list pyval) : len (survivors p xs) <= len xs.
Proof.
  induction xs as [|v xs IH]; [unfold len; simpl; lia|].
  rewrite survivors_cons, len_app, len_cons.
  destruct (try_finite p v); [rewrite len_cons|];
    change (len (@nil float)) with 0; lia.
Qed.

Lemma survivors_finite (xs : list pyval) :
  Forall (fun y => is_finite y = true) (survivors p xs).
Proof.
  induction xs as [|v xs IH]; [constructor|].
  rewrite survivors_cons. apply Forall_app. split; trivial. unfold try_finite.
  destruct (py_float p v) as [y|e]; [|constructor].
  destruct (is_finite y) eqn:E; repeat constructor. exact E.
Qed.

Lemma safe_mean_survivors (xs : list pyval) :
  safe_mean p xs =
  match survivors p xs with
  | [] => Ok nan
  | ys => fdiv_int (fsum ys) (len ys)
  end.
Proof.
  unfold safe_mean. rewrite finite_values_survivors.
  now destruct (survivors p xs).
Qed.

Lemma safe_median_survivors (xs : list pyval) :
  safe_median p xs =
  match survivors p xs with
  | [] => Ok nan
  | ys => median ys
  end.
Proof.
  unfold safe_median. rewrite finite_values_survivors.
  now destruct (survivors p xs).
Qed.

Lemma safe_mean_returns (xs : list pyval) :
  len xs < 2 ^ 53 -> returns (safe_mean p xs).
Proof.
  intros Hlen. rewrite safe_mean_survivors. pose proof (survivors_length xs) as Hs.
  destruct (survivors p xs) as [|y ys] eqn:E; [now exists nan|].
  rewrite fdiv_int_small; [now eexists|]. rewrite len_cons in *.
  pose proof (len_nonneg ys). lia.
Qed.

End Facts.

(** ** The median *)

Lemma insert_sorted_length (x : float) (ys : list float) :
  List.length (insert_sorted x ys) = S (List.length ys).
Proof.
  induction ys as [|y ys IH]; simpl; trivial.
  destruct (y <? x)%float; simpl; congruence.
Qed.

Lemma sorted_length (ys : list float) : List.length (sorted ys) = List.length ys.
Proof.
  induction ys as [|y ys IH]; simpl; trivial.
  rewrite insert_sorted_length. congruence.
Qed.

Lemma fdiv_int_2 (x : float) : fdiv_int x 2 = Ok (x / 2)%float.
Proof. reflexivity. Qed.

Lemma median_returns (ys : list float) : ys <> [] -> returns (median ys).
Proof.
  intros Hne. unfold median. rewrite sorted_length.
  destruct ys as [|y ys]; [congruence|].
  cbn [List.length]. destruct (Nat.odd (S (List.length ys))); [now eexists|].
  rewrite fdiv_int_2. now eexists.
Qed.

Lemma safe_median_returns (p : string -> option float) (xs : list pyval) :
  returns (safe_median p xs).
Proof.
  rewrite safe_median_survivors.
  destruct (survivors p xs) as [|y ys] eqn:E; [now exists nan|].
  apply median_returns. discriminate.
Qed.

(** ** The profit factor *)

Lemma fold_pf_step (Rs : list float) (gains losses : float) :
  fold_left pf_step Rs (gains, losses) =
  (fold_left add (filter (fun R => 0 <? R)%float Rs) gains,
   fold_left add (map abs (filter (fun R => R <? 0)%float Rs)) losses).
Proof.
  revert gains losses. induction Rs as [|R Rs IH]; intros gains losses; trivial.
  cbn [fold_left filter]. unfold pf_step at 2.
  destruct (0 <? R)%float eqn:Hpos.
  - rewrite (is_pos_not_neg R Hpos). apply IH.
  - destruct (R <? 0)%float eqn:Hneg; [|apply IH].
    cbn [map fold_left]. rewrite <- (opp_neg_abs R Hneg). apply IH.
Qed.

Lemma pf_ratio_value (gains losses : float) :
  pf_ratio (gains, losses) =
  Ok (if (losses =? 0)%float then
        if (0 <? gains)%float then infinity else nan
      else (gains / losses)%float).
Proof.
  unfold pf_ratio, fdiv. now destruct (losses =? 0)%float.
Qed.

(** the accumulators are never negative and never NaN *)
Lemma pf_step_acc (g l R : float) :
  is_acc g = true -> is_acc l = true ->
  is_acc (fst (pf_step (g, l) R)) = true /\ is_acc (snd (pf_step (g, l) R)) = true.
Proof.
  intros Hg Hl. unfold pf_step.
  destruct (0 <? R)%float eqn:Hpos; simpl.
  - split; trivial. apply is_pos_acc, add_pos; trivial.
  - destruct (R <? 0)%float eqn:Hneg; simpl; split; trivial.
    apply is_pos_acc, add_pos; trivial. now apply opp_neg_pos.
Qed.

Lemma fold_pf_step_acc (Rs : list float) (acc : float * float) :
  is_acc (fst acc) = true -> is_acc (snd acc) = true ->
  is_acc (fst (fold_left pf_step Rs acc)) = true /\
  is_acc (snd (fold_left pf_step Rs acc)) = true.
Proof.
  revert acc. induction Rs as [|R Rs IH]; intros [g l] Hg Hl; simpl in *; auto.
  destruct (pf_step_acc g l R Hg Hl). now apply IH.
Qed.


Lemma fold_pf_step_gains_inf (Rs : list float) (l : float) :
  fst (fold_left pf_step Rs (infinity, l)) = infinity.
Proof.
  revert l. induction Rs as [|R Rs IH]; intros l; trivial.
  cbn [fold_left]. unfold pf_step at 2.
  destruct (0 <? R)%float eqn:Hpos.
  - rewrite add_inf_l by exact Hpos. apply IH.
  - destruct (R <? 0)%float; apply IH.
Qed.



Section Facts.

Variable p : string -> option float.

Lemma pf_loop_mapM (rows : list pyval) (acc : float * float) :
  pf_loop p rows acc =
  vals <- mapM get_R rows ;;
  Ok (fold_left pf_step (map (float_or_zero p) vals) acc).
Proof.
  revert acc. induction rows as [|r rows IH]; intros acc; trivial.
  cbn [pf_loop mapM]. unfold get_R at 1.
  destruct (nested_get r "simulation" "R") as [v|e]; trivial.
  cbn [bind]. rewrite IH. now destruct (mapM get_R rows).
Qed.

Lemma profit_factor_value (rows : list pyval) :
  profit_factor p rows =
  vals <- mapM get_R rows ;; Ok (pf_value (map (float_or_zero p) vals)).
Proof.
  unfold profit_factor. rewrite pf_loop_mapM.
  destruct (mapM get_R rows) as [vals|e]; trivial. cbn [bind].
  rewrite fold_pf_step, pf_ratio_value. reflexivity.
Qed.

End Facts.

(** ** The summary *)

Lemma pct_returns (k n : Z) : 0 <= k <= n -> n < 2 ^ 53 -> returns (pct k n).
Proof.
  intros Hk Hn. destruct (Z.eq_dec n 0) as [->|Hne]; [now exists nan|].
  destruct (pct_small k n ltac:(lia) ltac:(lia)) as (fk & _ & ->). now eexists.
Qed.

Section Facts.

Variable p : string -> option float.

Lemma profit_factor_returns (rows : list pyval) :
  returns (mapM get_R rows) -> returns (profit_factor p rows).
Proof.
  intros [vals Hv]. rewrite profit_factor_value, Hv. now eexists.
Qed.

(** what each field of a summary was computed from *)
Lemma summarize_inv (rows : list pyval) (s : Summary) :
  summarize p rows = Ok s ->
  exists R_vals ret_vals rr_vals hold_days mae_vals mfe_vals ex,
    mapM get_R rows = Ok R_vals /\
    mapM (fun r => nested_get r "simulation" "returnPct") rows = Ok ret_vals /\
    mapM (fun r => nested_get r "risk" "rrAtEntry") rows = Ok rr_vals /\
    mapM (fun r => nested_get r "simulation" "holdingDays") rows = Ok hold_days /\
    mapM (fun r => nested_get r "simulation" "maePct") rows = Ok mae_vals /\
    mapM (fun r => nested_get r "simulation" "mfePct") rows = Ok mfe_vals /\
    Counter (fun r => nested_get r "simulation" "exitType") rows = Ok ex /\
    s_n s = len rows /\
    count_result rows "WIN" = Ok (s_wins s) /\
    pct (s_wins s) (len rows) = Ok (s_win_rate_pct s) /\
    safe_mean p R_vals = Ok (s_avg_R s) /\
    safe_median p R_vals = Ok (s_med_R s) /\
    safe_mean p R_vals = Ok (s_exp_R s) /\
    profit_factor p rows = Ok (s_profit_factor s) /\
    safe_mean p ret_vals = Ok (s_avg_return_pct s) /\
    safe_mean p hold_days = Ok (s_avg_hold_days s) /\
    pct (counter_get ex "TARGET") (len rows) = Ok (s_target_hit_pct s) /\
    pct (counter_get ex "STOP") (len rows) = Ok (s_stop_hit_pct s) /\
    pct (counter_get ex "TIME") (len rows) = Ok (s_time_exit_pct s) /\
    safe_mean p rr_vals = Ok (s_avg_rr_at_entry s) /\
    safe_mean p mae_vals = Ok (s_avg_mae_pct s) /\
    safe_mean p mfe_vals = Ok (s_avg_mfe_pct s).
Proof.
  unfold summarize. intros H.
  repeat inv_bind H. inversion H; subst s; clear H. cbn.
  do 7 eexists. repeat split; eassumption.
Qed.

Lemma summarize_returns (rows : list pyval) :
  Forall (fun r => countable_record r = true) rows -> len rows < 2 ^ 53 ->
  returns (summarize p rows).
Proof.
  intros Hwf Hlen.
  assert (Hsim : forall inner,
             Forall (fun r => returns (nested_get r "simulation" inner)) rows).
  { intros inner. eapply Forall_impl; [|exact Hwf].
    intros r Hr. now apply countable_record_gets. }
  assert (Hrisk : forall inner,
             Forall (fun r => returns (nested_get r "risk" inner)) rows).
  { intros inner. eapply Forall_impl; [|exact Hwf].
    intros r Hr. now apply countable_record_gets. }
  assert (Hex : Forall (fun r => exists x, nested_get r "simulation" "exitType" = Ok x
                                           /\ hashable x = true) rows).
  { eapply Forall_impl; [|exact Hwf]. intros r Hr. now apply countable_record_gets. }
  pose proof (len_nonneg rows) as Hn0.
  assert (Hvals : forall f : pyval -> result pyval,
            Forall (fun r => returns (f r)) rows ->
            exists vals, mapM f rows = Ok vals /\ len vals < 2 ^ 53).
  { intros f Hf. destruct (mapM_returns f rows Hf) as (vals & Hv & Hl).
    exists vals. split; trivial. unfold len in *. now rewrite Hl. }
  destruct (Counter_returns _ rows Hex) as (ex & Hc & Hcl).
  destruct (Hvals _ (Hsim "R")) as (R_vals & HR & HRl).
  destruct (Hvals _ (Hsim "returnPct")) as (ret_vals & Hret & Hretl).
  destruct (Hvals _ (Hrisk "rrAtEntry")) as (rr_vals & Hrr & Hrrl).
  destruct (Hvals _ (Hsim "holdingDays")) as (hold_days & Hhd & Hhdl).
  destruct (Hvals _ (Hsim "maePct")) as (mae_vals & Hmae & Hmael).
  destruct (Hvals _ (Hsim "mfePct")) as (mfe_vals & Hmfe & Hmfel).
  assert (Hpc : forall s, returns (pct (counter_get ex s) (len rows))).
  { intros s. pose proof (counter_get_bounds ex s). apply pct_returns; lia. }
  destruct (pct_returns (len (filter (has_result "WIN") rows)) (len rows))
    as [win_rate Hwr]; [pose proof (len_filter_le (has_result "WIN") rows);
                        pose proof (len_nonneg (filter (has_result "WIN") rows)); lia | lia |].
  destruct (safe_mean_returns p R_vals HRl) as [avg_R HavgR].
  destruct (safe_median_returns p R_vals) as [med_R HmedR].
  destruct (profit_factor_returns rows) as [pf Hpf]; [now exists R_vals|].
  destruct (safe_mean_returns p ret_vals Hretl) as [avg_ret Havgret].
  destruct (safe_mean_returns p hold_days Hhdl) as [avg_hold Havghold].
  destruct (Hpc "TARGET") as [target Htarget].
  destruct (Hpc "STOP") as [stop Hstop].
  destruct (Hpc "TIME") as [t_exit Htime].
  destruct (safe_mean_returns p rr_vals Hrrl) as [avg_rr Havgrr].
  destruct (safe_mean_returns p mae_vals Hmael) as [avg_mae Havgmae].
  destruct (safe_mean_returns p mfe_vals Hmfel) as [avg_mfe Havgmfe].
  unfold summarize.
  rewrite !count_result_returns by apply Hsim. cbn [bind].
  rewrite Hc. cbn [bind]. rewrite HR, Hret, Hrr, Hhd, Hmae, Hmfe. cbn [bind].
  rewrite Hwr, HavgR, HmedR, Hpf, Havgret, Havghold, Htarget, Hstop, Htime,
    Havgrr, Havgmae, Havgmfe. cbn [bind]. now eexists.
Qed.

End Facts.

(** ** The partition *)

Lemma partition_loop_filter (events buy_true buy_false : list pyval) :
  Forall (fun r => returns (nested_get r "signal" "buyNow")) events ->
  partition_loop events buy_true buy_false =
  Ok (buy_true ++ filter buy_now events,
      buy_false ++ filter (fun r => negb (buy_now r)) events).
Proof.
  intros H. revert buy_true buy_false.
  induction H as [|r events [x Hx] _ IH]; intros buy_true buy_false.
  - simpl. now rewrite !app_nil_r.
  - cbn [partition_loop filter]. rewrite Hx. cbn [bind].
    replace (buy_now r) with (is_True x) by (unfold buy_now; now rewrite Hx).
    destruct (is_True x); rewrite IH; cbn [negb]; now rewrite <- app_assoc.
Qed.

Lemma filter_split_length {A : Type} (f : A -> bool) (xs : list A) :
  len (filter f xs) + len (filter (fun x => negb (f x)) xs) = len xs.
Proof.
  induction xs as [|x xs IH]; trivial.
  cbn [filter]. destruct (f x); cbn [negb]; rewrite !len_cons; lia.
Qed.

Lemma is_True_iff (x : pyval) : is_True x = true <-> x = PBool true.
Proof.
  split; [|now intros ->].
  destruct x as [ |[|]| | | | | ]; simpl; intros H; trivial; discriminate.
Qed.

(** ** More on the profit factor *)

Lemma is_pos_0 : is_pos 0 = false.
Proof. reflexivity. Qed.

Lemma is_acc_0 : is_acc 0 = true.
Proof. reflexivity. Qed.



(** a value of plus infinity among them: the gains end up infinite *)
Lemma fold_pf_step_some_inf (Rs : list float) (g l : float) :
  is_acc g = true -> is_acc l = true ->
  Exists (fun R => R = infinity) Rs ->
  fst (fold_left pf_step Rs (g, l)) = infinity.
Proof.
  intros Hg Hl Hex. revert g l Hg Hl.
  induction Hex as [R Rs ->|R Rs _ IH]; intros g l Hg Hl.
  - cbn [fold_left]. unfold pf_step at 2.
    change (0 <? infinity)%float with true. cbv iota.
    rewrite add_inf_r by trivial. apply fold_pf_step_gains_inf.
  - cbn [fold_left]. destruct (pf_step_acc g l R Hg Hl) as [Hg' Hl'].
    destruct (pf_step (g, l) R) as [g' l']. now apply IH.
Qed.

Lemma pf_ratio_inf (l : float) :
  is_acc l = true ->
  pf_ratio (infinity, l) = Ok (if is_infinity l then nan else infinity).
Proof.
  intros Hl. rewrite pf_ratio_value, is_acc_eqb_0 by trivial.
  destruct (is_infinity l) eqn:Hi.
  - rewrite (is_acc_infinity l Hl Hi). reflexivity.
  - destruct (is_pos l) eqn:Hp; [|reflexivity]. cbn [negb].
    now rewrite div_inf_finite.
Qed.

(** ** Many equal records *)

Lemma count_result_repeat (r : pyval) (s : string) (x : pyval) (n : nat) :
  nested_get r "simulation" "result" = Ok x ->
  count_result (repeat r n) s = Ok (if eq_str x s then Z.of_nat n else 0).
Proof.
  intros Hx. induction n as [|n IH].
  - now destruct (eq_str x s).
  - cbn [repeat count_result]. rewrite Hx, IH. cbn [bind].
    destruct (eq_str x s); f_equal. lia.
Qed.

Lemma mapM_repeat {A B : Type} (f : A -> result B) (a : A) (b : B) (n : nat) :
  f a = Ok b -> mapM f (repeat a n) = Ok (repeat b n).
Proof.
  intros Hb. induction n as [|n IH]; trivial.
  cbn [repeat mapM]. now rewrite Hb, IH.
Qed.

Lemma Counter_repeat (f : pyval -> result pyval) (r x : pyval) (n : nat) :
  f r = Ok x -> hashable x = true -> Counter f (repeat r n) = Ok (repeat x n).
Proof.
  intros Hx Hh. induction n as [|n IH]; trivial.
  cbn [repeat Counter]. rewrite Hx. cbn [bind]. now rewrite Hh, IH.
Qed.

Lemma counter_get_repeat_None (s : string) (n : nat) :
  counter_get (repeat PNone n) s = 0.
Proof.
  unfold counter_get. induction n as [|n IH]; trivial.
Qed.

Lemma survivors_repeat_None (p : string -> option float) (n : nat) :
  survivors p (repeat PNone n) = [].
Proof. induction n as [|n IH]; trivial. Qed.

Lemma safe_mean_repeat_None (p : string -> option float) (n : nat) :
  safe_mean p (repeat PNone n) = Ok nan.
Proof. now rewrite safe_mean_survivors, survivors_repeat_None. Qed.

Lemma safe_median_repeat_None (p : string -> option float) (n : nat) :
  safe_median p (repeat PNone n) = Ok nan.
Proof. now rewrite safe_median_survivors, survivors_repeat_None. Qed.

Lemma profit_factor_repeat_None (p : string -> option float) (r : pyval) (n : nat) :
  get_R r = Ok PNone -> profit_factor p (repeat r n) = Ok nan.
Proof.
  intros Hr. rewrite profit_factor_value, (mapM_repeat get_R r PNone n Hr).
  cbn [bind]. f_equal. induction n as [|n IH]; trivial.
Qed.

Lemma len_repeat {A : Type} (a : A) (n : nat) : len (repeat a n) = Z.of_nat n.
Proof. unfold len. now rewrite repeat_length. Qed.

(** * The claims *)


Lemma float_nan_not_inf : nan <> infinity.
Proof. intros H. apply (f_equal is_nan) in H. discriminate H. Qed.



(** C5: [summarize([])] has n = 0 and NaN in every percentage, mean and
    median field. *)
Theorem summarize_empty (p : string -> option float) :
  exists s,
    summarize p [] = Ok s /\ s_n s = 0 /\
    s_win_rate_pct s = nan /\ s_target_hit_pct s = nan /\
    s_stop_hit_pct s = nan /\ s_time_exit_pct s = nan /\
    s_avg_R s = nan /\ s_med_R s = nan /\ s_exp_R s = nan /\
    s_profit_factor s = nan /\ s_avg_return_pct s = nan /\
    s_avg_hold_days s = nan /\ s_avg_rr_at_entry s = nan /\
    s_avg_mae_pct s = nan /\ s_avg_mfe_pct s = nan.
Proof. eexists. repeat split; reflexivity. Qed.






(** C4: the list [safe_mean] and [safe_median] build is the list of
    survivors (values [float] accepts and that are finite); with no survivor
    the result is NaN, otherwise the sum of the survivors over their number,
    or their median.  Every averaged field of a summary is the safe mean (for
    med_R the safe median) of its column.  A record whose R does not coerce
    is left out of avg_R and med_R and counted in n. *)
Theorem safe_mean_median_policy (p : string -> option float) :
  (forall xs,
      finite_values p xs = survivors p xs /\
      (survivors p xs = [] ->
       safe_mean p xs = Ok nan /\ safe_median p xs = Ok nan) /\
      (survivors p xs <> [] -> len xs < 2 ^ 53 ->
       (exists k, float_of_int (len (survivors p xs)) = Ok k /\
                  safe_mean p xs = Ok (fsum (survivors p xs) / k)%float) /\
       safe_median p xs = median (survivors p xs) /\
       returns (median (survivors p xs)))) /\
  (forall rows s,
      summarize p rows = Ok s ->
      exists R_vals ret_vals rr_vals hold_days mae_vals mfe_vals,
        mapM get_R rows = Ok R_vals /\
        mapM (fun r => nested_get r "simulation" "returnPct") rows = Ok ret_vals /\
        mapM (fun r => nested_get r "risk" "rrAtEntry") rows = Ok rr_vals /\
        mapM (fun r => nested_get r "simulation" "holdingDays") rows = Ok hold_days /\
        mapM (fun r => nested_get r "simulation" "maePct") rows = Ok mae_vals /\
        mapM (fun r => nested_get r "simulation" "mfePct") rows = Ok mfe_vals /\
        safe_mean p R_vals = Ok (s_avg_R s) /\
        safe_median p R_vals = Ok (s_med_R s) /\
        safe_mean p R_vals = Ok (s_exp_R s) /\
        safe_mean p ret_vals = Ok (s_avg_return_pct s) /\
        safe_mean p hold_days = Ok (s_avg_hold_days s) /\
        safe_mean p rr_vals = Ok (s_avg_rr_at_entry s) /\
        safe_mean p mae_vals = Ok (s_avg_mae_pct s) /\
        safe_mean p mfe_vals = Ok (s_avg_mfe_pct s)) /\
  (forall rows1 r rows2 v e s,
      get_R r = Ok v -> py_float p v = Raise e ->
      summarize p (rows1 ++ r :: rows2) = Ok s ->
      s_n s = len rows1 + 1 + len rows2 /\
      exists vals1 vals2,
        mapM get_R rows1 = Ok vals1 /\ mapM get_R rows2 = Ok vals2 /\
        safe_mean p (vals1 ++ vals2) = Ok (s_avg_R s) /\
        safe_median p (vals1 ++ vals2) = Ok (s_med_R s)).
Proof.
  split; [|split].
  - intros xs. split; [apply finite_values_survivors|]. split.
    + intros E. now rewrite safe_mean_survivors, safe_median_survivors, E.
    + intros Hne Hlen. rewrite safe_mean_survivors, safe_median_survivors.
      pose proof (survivors_length p xs) as Hs.
      destruct (survivors p xs) as [|y ys] eqn:E; [congruence|].
      assert (Hk : 0 < len (y :: ys) < 2 ^ 53).
      { rewrite len_cons in *. pose proof (len_nonneg ys). lia. }
      repeat split.
      * exists (Fint (len (y :: ys))). split; [now apply float_of_int_small|].
        now apply fdiv_int_small.
      * now apply median_returns.
  - intros rows s Hs.
    destruct (summarize_inv p _ s Hs)
      as (R_vals & ret_vals & rr_vals & hold_days & mae_vals & mfe_vals & ex & H).
    exists R_vals, ret_vals, rr_vals, hold_days, mae_vals, mfe_vals. tauto.
  - intros rows1 r rows2 v e s Hv He Hs.
    destruct (summarize_inv p _ s Hs)
      as (R_vals & ? & ? & ? & ? & ? & ? & HR & _ & _ & _ & _ & _ & _ & Hn & _ & _
          & Havg & Hmed & _).
    split; [rewrite Hn, len_app, len_cons; lia|].
    destruct (mapM_app _ _ _ _ HR) as (vals1 & vals2' & H1 & H2 & ->).
    cbn [mapM] in H2. rewrite Hv in H2. cbn [bind] in H2.
    destruct (mapM get_R rows2) as [vals2|] eqn:E2; [|discriminate].
    inversion H2; subst vals2'; clear H2.
    exists vals1, vals2. repeat split; trivial.
    + rewrite safe_mean_survivors in *. rewrite survivors_app in *.
      rewrite survivors_cons in Havg. unfold try_finite in Havg at 1.
      now rewrite He in Havg.
    + rewrite safe_median_survivors in *. rewrite survivors_app in *.
      rewrite survivors_cons in Hmed. unfold try_finite in Hmed at 1.
      now rewrite He in Hmed.
Qed.

Lemma safe_mean_median_policy_witness :
  (exists k, float_of_int (len (survivors rejects_all [PInt 2; PStr "n/a"; PFloat nan]))
             = Ok k /\
             safe_mean rejects_all [PInt 2; PStr "n/a"; PFloat nan]
             = Ok (fsum (survivors rejects_all [PInt 2; PStr "n/a"; PFloat nan]) / k)%float) /\
  exists s, summarize rejects_all [record_A; record_text_R] = Ok s /\
            s_n s = 2 /\ s_avg_R s = 2%float /\ s_med_R s = 2%float.
Proof.
  destruct (safe_mean_median_policy rejects_all) as (H1 & _ & H2). split.
  - destruct (H1 [PInt 2; PStr "n/a"; PFloat nan]) as (_ & _ & H).
    apply H; [discriminate | reflexivity].
  - eexists. split; [reflexivity|].
    destruct (H2 [record_A] record_text_R [] (PStr "n/a") ValueError _
                 eq_refl eq_refl eq_refl) as (Hn & _).
    split; [exact Hn|]. split; reflexivity.
Defined.

(** C6, as stated for every events list, fails on an event whose [signal]
    is a string: the loop calls [.get] on it and raises [AttributeError], so
    there are no groups at all. *)
Lemma partition_raises_on_text_signal :
  partition_events [record_A; PDict [("signal", PStr "yes")]; record_B]
    = Raise AttributeError /\
  ~ returns (partition_events [record_A; PDict [("signal", PStr "yes")]; record_B]).
Proof.
  split; [reflexivity|]. intros [groups H]. discriminate H.
Qed.

(** C6, amended: for events that are mappings whose [signal] is absent,
    false or a mapping, the partition sends an event to the true group
    exactly when [signal.buyNow] is the boolean [True] and every other event
    to the false group; the groups share no event and their sizes add up to
    the number of events. *)
Theorem partition_exhaustive_disjoint (events : list pyval) :
  Forall (fun r => readable "signal" r = true) events ->
  exists buy_true buy_false,
    partition_events events = Ok (buy_true, buy_false) /\
    buy_true = filter buy_now events /\
    buy_false = filter (fun r => negb (buy_now r)) events /\
    (forall r, In r events ->
       (In r buy_true <-> nested_get r "signal" "buyNow" = Ok (PBool true)) /\
       (In r buy_false <-> nested_get r "signal" "buyNow" <> Ok (PBool true)) /\
       ~ (In r buy_true /\ In r buy_false)) /\
    len buy_true + len buy_false = len events.
Proof.
  intros Hwf.
  assert (Hret : Forall (fun r => returns (nested_get r "signal" "buyNow")) events).
  { eapply Forall_impl; [|exact Hwf]. intros r Hr. now apply readable_gets. }
  exists (filter buy_now events), (filter (fun r => negb (buy_now r)) events).
  split; [apply (partition_loop_filter events [] [] Hret)|].
  do 2 (split; trivial). split; [|apply filter_split_length].
  intros r Hin. rewrite !filter_In.
  assert (Hb : buy_now r = true <-> nested_get r "signal" "buyNow" = Ok (PBool true)).
  { unfold buy_now. destruct (nested_get r "signal" "buyNow") as [x|e].
    - rewrite is_True_iff. split; congruence.
    - split; discriminate. }
  split; [|split].
  - split; [intros [_ H]; now apply Hb | intros H; split; [trivial | now apply Hb]].
  - split.
    + intros [_ H] H'. apply Hb in H'. rewrite H' in H. discriminate.
    + intros H. split; trivial.
      destruct (buy_now r) eqn:E; trivial. exfalso. apply H. now apply Hb.
  - intros [[_ H1] [_ H2]]. rewrite H1 in H2. discriminate.
Qed.

Lemma partition_exhaustive_disjoint_witness :
  exists buy_true buy_false,
    let events :=
      [record_A; record_B; PDict [("signal", PDict [("buyNow", PStr "true")])];
       PDict [("signal", PNone)]; PDict []; PDict [("signal", PDict [("buyNow", PInt 1)])]] in
    partition_events events = Ok (buy_true, buy_false) /\
    buy_true = filter buy_now events /\
    buy_false = filter (fun r => negb (buy_now r)) events /\
    (forall r, In r events ->
       (In r buy_true <-> nested_get r "signal" "buyNow" = Ok (PBool true)) /\
       (In r buy_false <-> nested_get r "signal" "buyNow" <> Ok (PBool true)) /\
       ~ (In r buy_true /\ In r buy_false)) /\
    len buy_true + len buy_false = len events.
Proof.
  apply partition_exhaustive_disjoint. repeat constructor.
Defined.

Lemma is_infinity_not_finite (x : float) : is_infinity x = true -> is_finite x = false.
Proof. unfold is_finite. intros ->. now rewrite orb_true_r. Qed.

Lemma delta_values_spec (p : string -> option float) (av bv : pyval) :
  delta_values p av bv =
  match finite_difference p av bv with
  | Some d => d
  | None => nan
  end.
Proof.
  unfold delta_values, finite_difference.
  destruct (py_float p av) as [x|]; trivial.
  destruct (py_float p bv) as [y|]; trivial.
  now destruct (is_finite x && is_finite y).
Qed.

(** C7: [delta] is the true value minus the false value when both coerce to
    finite numbers and NaN when either side does not coerce or is not
    finite, so an infinite profit factor on either side gives NaN; for the
    two-record example the avg_R delta is 3. *)
Theorem delta_spec (p : string -> option float) :
  (forall a b key,
      let av := summary_get a key in
      let bv := summary_get b key in
      delta p a b key =
        match finite_difference p av bv with Some d => d | None => nan end /\
      (forall x y,
          py_float p av = Ok x -> py_float p bv = Ok y ->
          is_finite x = true -> is_finite y = true ->
          delta p a b key = (x - y)%float) /\
      ((forall x, py_float p av = Ok x -> is_finite x = false) ->
       delta p a b key = nan) /\
      ((forall y, py_float p bv = Ok y -> is_finite y = false) ->
       delta p a b key = nan)) /\
  (forall a b,
      is_infinity (s_profit_factor a) = true \/
      is_infinity (s_profit_factor b) = true ->
      delta p a b "profit_factor" = nan) /\
  (exists s_true s_false,
      summarize p [record_A] = Ok s_true /\
      summarize p [record_B] = Ok s_false /\
      delta p s_true s_false "avg_R" = 3%float).
Proof.
  split; [|split].
  - intros a b key av bv. unfold delta. fold av bv.
    split; [apply delta_values_spec|]. unfold delta_values. split; [|split].
    + intros x y -> -> -> ->. reflexivity.
    + intros H. destruct (py_float p av) as [x|]; trivial.
      rewrite (H x eq_refl). now destruct (py_float p bv).
    + intros H. destruct (py_float p av) as [x|]; trivial.
      destruct (py_float p bv) as [y|]; trivial.
      rewrite (H y eq_refl). now rewrite andb_false_r.
  - intros a b H. unfold delta, delta_values. cbn.
    destruct H as [H|H]; apply is_infinity_not_finite in H; rewrite H; trivial.
    now rewrite andb_false_r.
  - do 2 eexists. repeat split; reflexivity.
Qed.

Lemma delta_spec_witness :
  exists s_true s_false,
    summarize rejects_all [record_A] = Ok s_true /\
    summarize rejects_all [record_B] = Ok s_false /\
    delta rejects_all s_true s_false "avg_R" = (2 - -1)%float /\
    delta rejects_all s_true s_false "profit_factor" = nan /\
    delta rejects_all s_true s_false "avg_return_%" = nan.
Proof.
  destruct (delta_spec rejects_all) as (H1 & H2 & _).
  do 2 eexists. split; [reflexivity|]. split; [reflexivity|]. split; [|split].
  - match goal with |- delta _ ?a ?b ?k = _ =>
      destruct (H1 a b k) as (_ & H & _) end.
    apply H; reflexivity.
  - apply H2. left. reflexivity.
  - match goal with |- delta _ ?a ?b ?k = _ =>
      destruct (H1 a b k) as (_ & _ & H & _) end.
    apply H. intros x Hx. inversion Hx. reflexivity.
Defined.

Lemma pct_many : exists f, pct many many = Ok f /\ (100 <? f)%float = true.
Proof. eexists. split; [vm_compute|]; reflexivity. Qed.

Lemma pct_0_many : pct 0 many = Ok 0%float.
Proof. vm_compute. reflexivity. Qed.

(** a list of [n] bare winning records *)
Lemma summarize_repeat_win (p : string -> option float) (n : nat) (f z : float) :
  pct (Z.of_nat n) (Z.of_nat n) = Ok f -> pct 0 (Z.of_nat n) = Ok z ->
  exists s,
    summarize p (repeat record_win n) = Ok s /\
    s_n s = Z.of_nat n /\ s_wins s = Z.of_nat n /\ s_win_rate_pct s = f.
Proof.
  intros Hf Hz. unfold summarize. rewrite len_repeat.
  rewrite !(count_result_repeat record_win _ (PStr "WIN") n eq_refl).
  cbn [bind eq_str String.eqb Ascii.eqb Bool.eqb].
  rewrite (Counter_repeat _ record_win PNone n eq_refl eq_refl). cbn [bind].
  rewrite !(mapM_repeat _ record_win PNone n eq_refl). cbn [bind].
  rewrite !counter_get_repeat_None, !safe_mean_repeat_None, safe_median_repeat_None.
  rewrite (profit_factor_repeat_None p record_win n eq_refl).
  rewrite Hf, Hz. cbn [bind].
  eexists. split; [reflexivity|]. cbn [s_n s_wins s_win_rate_pct]. auto.
Qed.

(** Why the range below is stated up to a size: the product
    [100.0 * wins] is exact only while it fits 53 bits.  On 5920956124208825
    winning records, more than any list can hold, it would be rounded up and
    the quotient would come out above 100. *)
Lemma win_rate_above_100 :
  (forall p, exists s,
      summarize p many_wins = Ok s /\ s_n s = many /\ s_wins s = many /\
      (100 <? s_win_rate_pct s)%float = true) /\
  0 < many.
Proof.
  split; [|reflexivity]. intros p.
  assert (Hn : Z.of_nat (Z.to_nat many) = many) by (apply Z2Nat.id; unfold many; lia).
  destruct pct_many as (f & E & Hf).
  destruct (summarize_repeat_win p (Z.to_nat many) f 0%float) as (s & Hs & H1 & H2 & H3).
  - rewrite Hn. exact E.
  - rewrite Hn. exact pct_0_many.
  - exists s. rewrite Hn in H1, H2. rewrite H3. auto.
Qed.

(** C8: on a list of at most 2^46 records, win_rate_% is
    [100.0 * wins / n] for wins the number of records whose
    [simulation.result] is ["WIN"], and lies within 0 and 100 when n > 0;
    it is NaN when n = 0. *)
Theorem win_rate_range (p : string -> option float) (rows : list pyval) :
  (forall s,
      summarize p rows = Ok s ->
      s_n s = len rows /\
      s_wins s = len (filter (has_result "WIN") rows) /\
      (len rows = 0 -> s_win_rate_pct s = nan) /\
      (0 < len rows <= 2 ^ 46 ->
       (exists fw fn,
           float_of_int (s_wins s) = Ok fw /\ float_of_int (s_n s) = Ok fn /\
           s_win_rate_pct s = (100 * fw / fn)%float) /\
       (0 <=? s_win_rate_pct s)%float = true /\
       (s_win_rate_pct s <=? 100)%float = true)) /\
  (Forall (fun r => countable_record r = true) rows -> len rows < 2 ^ 53 ->
   returns (summarize p rows)).
Proof.
  split; [|apply summarize_returns]. intros s Hs.
  destruct (summarize_inv p _ s Hs)
    as (? & ? & ? & ? & ? & ? & ? & _ & _ & _ & _ & _ & _ & _ & Hn & Hw & Hpct & _).
  pose proof (count_result_inv _ _ _ Hw) as Hwins.
  split; trivial. split; trivial. split.
  - intros H0. rewrite H0 in Hpct. cbn in Hpct. now inversion Hpct.
  - intros Hlen. assert (H46 : 2 ^ 46 < 2 ^ 53) by reflexivity.
    pose proof (len_filter_le (has_result "WIN") rows) as Hle.
    pose proof (len_nonneg (filter (has_result "WIN") rows)) as Hge.
    split.
    + destruct (pct_small (s_wins s) (len rows)) as (fw & Hfw & Hp); try lia.
      exists fw, (Fint (len rows)). rewrite Hn. split; trivial.
      split; [apply float_of_int_small; lia|]. congruence.
    + apply (pct_bounds (s_wins s) (len rows)); trivial; lia.
Qed.

Lemma win_rate_range_witness :
  exists s,
    summarize rejects_all [record_A; record_B; record_text_R] = Ok s /\
    s_n s = 3 /\ s_wins s = 1 /\
    (0 <=? s_win_rate_pct s)%float = true /\
    (s_win_rate_pct s <=? 100)%float = true.
Proof.
  destruct (win_rate_range rejects_all [record_A; record_B; record_text_R]) as [H Hret].
  destruct Hret as [s Hs]; [repeat constructor | reflexivity |].
  destruct (H s Hs) as (Hn & Hw & _ & Hr).
  exists s. split; [exact Hs|]. split; [exact Hn|]. split; [exact Hw|].
  apply Hr. split; [reflexivity | discriminate].
Defined.

(** C9: the exp_R field equals the avg_R field, both being the safe mean of
    the R values. *)
Theorem expectancy_is_avg_R (p : string -> option float) (rows : list pyval) :
  (forall s,
      summarize p rows = Ok s ->
      s_exp_R s = s_avg_R s /\
      exists R_vals,
        mapM get_R rows = Ok R_vals /\
        safe_mean p R_vals = Ok (s_avg_R s) /\
        safe_mean p R_vals = Ok (s_exp_R s)) /\
  (Forall (fun r => countable_record r = true) rows -> len rows < 2 ^ 53 ->
   returns (summarize p rows)).
Proof.
  split; [|apply summarize_returns]. intros s Hs.
  destruct (summarize_inv p _ s Hs)
    as (R_vals & ? & ? & ? & ? & ? & ? & HR & _ & _ & _ & _ & _ & _ & _ & _ & _
        & Havg & _ & Hexp & _).
  split; [congruence|]. now exists R_vals.
Qed.

Lemma expectancy_is_avg_R_witness :
  exists s,
    summarize rejects_all [record_A; record_B] = Ok s /\ s_exp_R s = s_avg_R s.
Proof.
  destruct (expectancy_is_avg_R rejects_all [record_A; record_B]) as [H Hret].
  destruct Hret as [s Hs]; [repeat constructor | reflexivity |].
  exists s. split; [exact Hs | apply (H s Hs)].
Defined.

(** C10, as stated, fails when the losses are infinite too: plus infinity
    over plus infinity is NaN. *)
Lemma profit_factor_inf_over_inf :
  (forall p, profit_factor p [record_inf; record_neg_inf] = Ok nan) /\
  nan <> infinity.
Proof. split; [intros p; reflexivity | exact float_nan_not_inf]. Qed.

(** C10, amended: [profit_factor] keeps values the safe mean discards.  An
    R that coerces to plus infinity makes the gain sum infinite, and the
    profit factor is then plus infinity whenever the loss sum is finite,
    negative R values or not, and NaN when the loss sum is infinite; an R
    that coerces to NaN goes into neither sum. *)
Theorem profit_factor_keeps_non_finite (p : string -> option float) :
  (try_finite p (PFloat infinity) = None /\ try_finite p (PFloat nan) = None) /\
  (forall acc, pf_step acc nan = acc) /\
  (forall rows vals,
      mapM get_R rows = Ok vals ->
      Exists (fun v => float_or_zero p v = infinity) vals ->
      let Rs := map (float_or_zero p) vals in
      let gains := fsum (filter (fun R => 0 <? R)%float Rs) in
      let losses := fsum (map abs (filter (fun R => R <? 0)%float Rs)) in
      gains = infinity /\
      (is_infinity losses = false -> profit_factor p rows = Ok infinity) /\
      (is_infinity losses = true -> profit_factor p rows = Ok nan)).
Proof.
  split; [split; reflexivity|]. split; [now intros [g l]|].
  intros rows vals Hv Hex Rs gains losses.
  assert (HEx : Exists (fun R => R = infinity) Rs).
  { unfold Rs. now apply Exists_map. }
  pose proof (fold_pf_step Rs 0 0) as Hfold. fold gains losses in Hfold.
  change (fold_left add (filter (fun R => 0 <? R)%float Rs) 0%float) with gains in Hfold.
  change (fold_left add (map abs (filter (fun R => R <? 0)%float Rs)) 0%float)
    with losses in Hfold.
  pose proof (fold_pf_step_some_inf Rs 0 0 is_acc_0 is_acc_0 HEx) as Hg.
  destruct (fold_pf_step_acc Rs (0%float, 0%float) is_acc_0 is_acc_0) as [_ Hl].
  rewrite Hfold in Hg, Hl. cbn [fst snd] in Hg, Hl.
  split; trivial.
  assert (Hpf : profit_factor p rows = Ok (if is_infinity losses then nan else infinity)).
  { unfold profit_factor. rewrite pf_loop_mapM, Hv. cbn [bind].
    fold Rs. rewrite Hfold, Hg. now apply pf_ratio_inf. }
  split; intros Hi; now rewrite Hpf, Hi.
Qed.

Lemma profit_factor_keeps_non_finite_witness :
  profit_factor rejects_all [record_B; record_inf] = Ok infinity /\
  profit_factor rejects_all [record_neg_inf; record_inf] = Ok nan.
Proof.
  destruct (profit_factor_keeps_non_finite rejects_all) as (_ & _ & H). split.
  - destruct (H [record_B; record_inf] [PInt (-1); PFloat infinity] eq_refl) as (_ & H1 & _).
    + apply Exists_cons_tl, Exists_cons_hd. reflexivity.
    + apply H1. reflexivity.
  - destruct (H [record_neg_inf; record_inf] [PFloat neg_infinity; PFloat infinity] eq_refl)
      as (_ & _ & H2).
    + apply Exists_cons_tl, Exists_cons_hd. reflexivity.
    + apply H2. reflexivity.
Defined.

(** * Further properties *)

(** ** How the lookups fail *)

Lemma nested_get_error (r : pyval) (outer inner : string) (e : exn) :
  nested_get r outer inner = Raise e -> e = AttributeError.
Proof.
  unfold nested_get. destruct (py_get r outer) as [v|e'] eqn:E; cbn [bind].
  - destruct (py_or v (PDict [])); simpl; congruence.
  - destruct r; simpl in E; congruence.
Qed.

Lemma unreadable_raises (outer inner : string) (r : pyval) :
  readable outer r = false -> nested_get r outer inner = Raise AttributeError.
Proof.
  destruct r as [ | | | | | |d]; try reflexivity. simpl. unfold field_ok.
  destruct (dict_get d outer) as [v|] eqn:E; [|discriminate].
  intros H. apply (nested_get_raises _ _ _ v); trivial. simpl. now rewrite E.
Qed.

Lemma returns_readable (outer inner : string) (r : pyval) :
  returns (nested_get r outer inner) -> readable outer r = true.
Proof.
  intros [x Hx]. destruct (readable outer r) eqn:E; trivial.
  rewrite (unreadable_raises outer inner r E) in Hx. discriminate.
Qed.

Lemma mapM_Ok_Forall {A B : Type} (f : A -> result B) (xs : list A) (ys : list B) :
  mapM f xs = Ok ys -> Forall (fun x => returns (f x)) xs.
Proof.
  revert ys. induction xs as [|x xs IH]; intros ys H; [constructor|].
  cbn [mapM] in H. apply bind_Ok in H. destruct H as (y & Hy & H).
  apply bind_Ok in H. destruct H as (ys' & Hys & _).
  constructor; [now exists y | now apply (IH ys')].
Qed.

Lemma mapM_raises {A B : Type} (f : A -> result B) (xs : list A) (err : exn) :
  (forall x e, f x = Raise e -> e = err) ->
  Exists (fun x => exists e, f x = Raise e) xs -> mapM f xs = Raise err.
Proof.
  intros Herr Hex. induction xs as [|x xs IH]; [inversion Hex|].
  cbn [mapM]. destruct (f x) as [y|e] eqn:E; cbn [bind].
  - rewrite IH; trivial. inversion Hex as [? ? [e He]|]; subst; trivial. congruence.
  - now rewrite (Herr x e E).
Qed.

Lemma count_result_raises (rows : list pyval) (s : string) :
  Exists (fun r => readable "simulation" r = false) rows ->
  count_result rows s = Raise AttributeError.
Proof.
  intros Hex. induction rows as [|r rows IH]; [inversion Hex|].
  cbn [count_result].
  destruct (nested_get r "simulation" "result") as [x|e] eqn:E; cbn [bind].
  - rewrite IH; trivial. inversion Hex as [? ? Hr|]; subst; trivial.
    rewrite (unreadable_raises _ "result" r Hr) in E. discriminate.
  - now rewrite (nested_get_error _ _ _ _ E).
Qed.

Lemma readable_all_returns (outer inner : string) (rows : list pyval) :
  Forall (fun r => readable outer r = true) rows ->
  Forall (fun r => returns (nested_get r outer inner)) rows.
Proof.
  intros H. eapply Forall_impl; [|exact H]. intros r Hr. now apply readable_gets.
Qed.

Lemma Counter_raises (rows : list pyval) :
  Forall (fun r => readable "simulation" r = true) rows ->
  Exists (fun r => exit_type_hashable r = false) rows ->
  Counter (fun r => nested_get r "simulation" "exitType") rows = Raise TypeError.
Proof.
  intros Hall Hex. induction Hall as [|r rows Hr _ IH]; [inversion Hex|].
  cbn [Counter]. destruct (readable_gets _ r Hr "exitType") as [x Hx].
  rewrite Hx. cbn [bind]. destruct (hashable x) eqn:Hh; trivial.
  rewrite IH; trivial. inversion Hex as [? ? H|]; subst; trivial.
  unfold exit_type_hashable in H. rewrite Hx in H. congruence.
Qed.

Lemma Counter_Ok_Forall (rows c : list pyval) :
  Counter (fun r => nested_get r "simulation" "exitType") rows = Ok c ->
  Forall (fun r => exit_type_hashable r = true) rows.
Proof.
  revert c. induction rows as [|r rows IH]; intros c H; [constructor|].
  cbn [Counter] in H. apply bind_Ok in H. destruct H as (x & Hx & H).
  destruct (hashable x) eqn:Hh; [|discriminate].
  apply bind_Ok in H. destruct H as (c' & Hc & _).
  constructor; [|now apply (IH c')].
  unfold exit_type_hashable. now rewrite Hx.
Qed.

Lemma Counter_get (rows c : list pyval) (s : string) :
  Counter (fun r => nested_get r "simulation" "exitType") rows = Ok c ->
  counter_get c s = len (filter (has_exit_type s) rows).
Proof.
  revert c. induction rows as [|r rows IH]; intros c H.
  - inversion H. reflexivity.
  - cbn [Counter] in H. apply bind_Ok in H. destruct H as (x & Hx & H).
    destruct (hashable x); [|discriminate].
    apply bind_Ok in H. destruct H as (c' & Hc & H). inversion H; subst c.
    unfold counter_get in *. cbn [filter].
    replace (has_exit_type s r) with (eq_str x s)
      by (unfold has_exit_type; now rewrite Hx).
    specialize (IH c' Hc). destruct (eq_str x s); [rewrite !len_cons|]; lia.
Qed.

Lemma countable_record_split (r : pyval) :
  countable_record r =
  readable "simulation" r && readable "risk" r && exit_type_hashable r.
Proof. reflexivity. Qed.

(** X1: a record whose [simulation] is a true non-mapping makes [summarize]
    raise [AttributeError]; with every [simulation] usable, an unhashable
    [exitType] makes it raise [TypeError]; with those usable too, a [risk]
    that is a true non-mapping makes it raise [AttributeError]. *)
Theorem summarize_raises (p : string -> option float) (rows : list pyval) :
  (Exists (fun r => readable "simulation" r = false) rows ->
   summarize p rows = Raise AttributeError) /\
  (Forall (fun r => readable "simulation" r = true) rows ->
   Exists (fun r => exit_type_hashable r = false) rows ->
   summarize p rows = Raise TypeError) /\
  (Forall (fun r => readable "simulation" r = true) rows ->
   Forall (fun r => exit_type_hashable r = true) rows ->
   Exists (fun r => readable "risk" r = false) rows ->
   summarize p rows = Raise AttributeError).
Proof.
  split; [|split].
  - intros Hex. unfold summarize. now rewrite count_result_raises.
  - intros Hall Hex. unfold summarize.
    rewrite !count_result_returns by now apply readable_all_returns.
    cbn [bind]. now rewrite Counter_raises.
  - intros Hsim Hhash Hex. unfold summarize.
    rewrite !count_result_returns by now apply readable_all_returns.
    cbn [bind].
    destruct (Counter_returns (fun r => nested_get r "simulation" "exitType") rows)
      as (c & -> & _).
    { rewrite Forall_forall in *. intros r Hin.
      destruct (readable_gets _ r (Hsim r Hin) "exitType") as [x Hx].
      exists x. split; trivial. specialize (Hhash r Hin).
      unfold exit_type_hashable in Hhash. now rewrite Hx in Hhash. }
    cbn [bind].
    destruct (mapM_returns (fun r => nested_get r "simulation" "R") rows)
      as (v1 & -> & _); [now apply readable_all_returns|].
    destruct (mapM_returns (fun r => nested_get r "simulation" "returnPct") rows)
      as (v2 & -> & _); [now apply readable_all_returns|].
    cbn [bind].
    rewrite (mapM_raises (fun r => nested_get r "risk" "rrAtEntry") rows AttributeError);
      trivial.
    + intros r e. apply nested_get_error.
    + eapply Exists_impl; [|exact Hex]. intros r Hr.
      exists AttributeError. now apply unreadable_raises.
Qed.

Lemma summarize_raises_witness :
  summarize rejects_all [record_A; record_text_simulation] = Raise AttributeError /\
  summarize rejects_all [record_A; record_list_exit] = Raise TypeError /\
  summarize rejects_all [record_A; PDict [("risk", PInt 3)]] = Raise AttributeError.
Proof.
  split; [|split].
  - destruct (summarize_raises rejects_all [record_A; record_text_simulation])
      as (H & _).
    apply H. apply Exists_cons_tl, Exists_cons_hd. reflexivity.
  - destruct (summarize_raises rejects_all [record_A; record_list_exit])
      as (_ & H & _).
    apply H; [repeat constructor|].
    apply Exists_cons_tl, Exists_cons_hd. reflexivity.
  - destruct (summarize_raises rejects_all [record_A; PDict [("risk", PInt 3)]])
      as (_ & _ & H).
    apply H; [repeat constructor | repeat constructor |].
    apply Exists_cons_tl, Exists_cons_hd. reflexivity.
Defined.

Lemma summarize_Ok_countable (p : string -> option float) (rows : list pyval)
  (s : Summary) :
  summarize p rows = Ok s -> Forall (fun r => countable_record r = true) rows.
Proof.
  intros Hs.
  destruct (summarize_inv p rows s Hs)
    as (v1 & v2 & v3 & v4 & v5 & v6 & ex & HR & _ & Hrr & _ & _ & _ & Hc & _).
  apply mapM_Ok_Forall in HR, Hrr. apply Counter_Ok_Forall in Hc.
  rewrite Forall_forall in *. intros r Hin.
  rewrite countable_record_split, !andb_true_iff. repeat split.
  - apply (returns_readable _ "R"). now apply HR.
  - apply (returns_readable _ "rrAtEntry"). now apply Hrr.
  - now apply Hc.
Qed.

(** X2: [summarize] returns a summary only for lists of mappings whose
    [simulation] and [risk] are absent, false or mappings and whose
    [exitType] is hashable. *)
Theorem summarize_returns_only_countable (p : string -> option float)
  (rows : list pyval) (s : Summary) :
  summarize p rows = Ok s -> Forall (fun r => countable_record r = true) rows.
Proof. exact (summarize_Ok_countable p rows s). Qed.

Lemma summarize_returns_only_countable_witness :
  Forall (fun r => countable_record r = true) [record_A; record_text_R].
Proof.
  destruct (summarize rejects_all [record_A; record_text_R]) as [s|e] eqn:E.
  - exact (summarize_returns_only_countable rejects_all _ s E).
  - discriminate E.
Defined.

(** ** Exact quotients *)

Lemma new_location_0 (n : Z) : new_location n 0 = loc_Exact.
Proof. unfold new_location. now destruct (Z.even n). Qed.

(** [n * c / n] is [c] on the doubles too, below 2^53 *)
Lemma SFdiv_int_exact (n c : Z) :
  0 < n -> 0 < c -> n * c < 2 ^ 53 ->
  SFdiv prec emax (SFint (n * c)) (SFint n) = SFint c.
Proof.
  intros Hn Hc Hnc.
  assert (Hn53 : n < 2 ^ 53) by nia. assert (Hc53 : c < 2 ^ 53) by nia.
  destruct (SFint_bounded (n * c) ltac:(lia)) as (Hida & Hda & _).
  destruct (SFint_bounded n ltac:(lia)) as (Hidn & Hdn & _).
  destruct (SFint_bounded c ltac:(lia)) as (Hidc & Hdc & Hbdc).
  destruct (Zdigits2_bounds (n * c) ltac:(lia)) as (Hda0 & Hla & Hha).
  destruct (Zdigits2_bounds n ltac:(lia)) as (Hdn0 & Hln & Hhn).
  destruct (Zdigits2_bounds c ltac:(lia)) as (Hdc0 & Hlc & Hhc).
  set (da := Zdigits2 (n * c)) in *. set (dn := Zdigits2 n) in *.
  set (dc := Zdigits2 c) in *.
  assert (Hdig : da <= dn + dc).
  { destruct (Z.le_gt_cases da (dn + dc)); trivial. exfalso.
    assert (2 ^ (dn + dc) <= 2 ^ (da - 1)) by (apply Z.pow_le_mono_r; lia).
    rewrite Z.pow_add_r in H0 by lia. nia. }
  assert (Hdig' : dn <= da).
  { apply Zdigits2_mono; nia. }
  unfold SFint. fold da dn dc. unfold SFdiv.
  pose proof (SFdiv_core_binary_spec
                (Z.to_pos (n * c * 2 ^ (53 - da))) (Z.to_pos (n * 2 ^ (53 - dn)))
                (da - 53) (dn - 53)) as Hcore.
  cbv zeta in Hcore. rewrite Hida, Hidn in Hcore.
  rewrite !Zdigits2_shiftl in Hcore by lia. fold da dn in Hcore.
  rewrite fexp64_eq in Hcore.
  replace (Z.min (Z.max (da + (53 - da) + (da - 53) - (dn + (53 - dn) + (dn - 53)) - 53)
                        (-1074)) (da - 53 - (dn - 53)))
    with (da - dn - 53) in Hcore by lia.
  replace (da - 53 - (dn - 53) - (da - dn - 53)) with 53 in Hcore by lia.
  assert (Hexact : n * c * 2 ^ (53 - da) * 2 ^ 53
                   = (c * 2 ^ (53 + dn - da)) * (n * 2 ^ (53 - dn))).
  { replace (53 + dn - da) with ((53 - da) + dn) by lia.
    replace (2 ^ 53) with (2 ^ (dn + (53 - dn))) by (f_equal; lia).
    rewrite !Z.pow_add_r by lia. ring. }
  assert (Hmy : 0 < n * 2 ^ (53 - dn)).
  { apply Z.mul_pos_pos; trivial. apply Z.pow_pos_nonneg; lia. }
  rewrite Hexact, Z.div_mul, Z.mod_mul, new_location_0 in Hcore by lia.
  rewrite Hida, Hidn, Hcore. simpl xorb.
  pose proof (binary_round_aux_exact false _ _ (dn + dc - da) ltac:(lia) Hbdc) as Hex.
  rewrite Hidc in Hex.
  replace (c * 2 ^ (53 - dc) * 2 ^ (dn + dc - da)) with (c * 2 ^ (53 + dn - da)) in Hex.
  - replace (dc - 53 - (dn + dc - da)) with (da - dn - 53) in Hex by lia. exact Hex.
  - rewrite <- Z.mul_assoc, <- Z.pow_add_r by lia. do 2 f_equal. lia.
Qed.

Lemma percent_all (n : Z) :
  0 < n <= 2 ^ 46 -> (100 * Fint n / Fint n)%float = 100%float.
Proof.
  intros Hn. assert (H46 : 2 ^ 46 * 100 < 2 ^ 53) by reflexivity.
  apply Prim2SF_inj.
  rewrite div_spec, mul_spec, Prim2SF_100, !Prim2SF_Fint by lia.
  unfold SF64div, SF64mul. rewrite SFmul_int by lia.
  replace (100 * n) with (n * 100) by ring.
  apply SFdiv_int_exact; lia.
Qed.

Lemma percent_none (n : Z) :
  0 < n < 2 ^ 53 -> (100 * 0 / Fint n)%float = 0%float.
Proof.
  intros Hn. apply Prim2SF_inj. rewrite div_spec, Prim2SF_Fint by lia. reflexivity.
Qed.

Lemma pct_all (n : Z) : 0 < n <= 2 ^ 46 -> pct n n = Ok 100%float.
Proof.
  intros Hn. assert (H46 : 2 ^ 46 < 2 ^ 53) by reflexivity.
  destruct (pct_small n n ltac:(lia) ltac:(lia)) as (fk & Hfk & ->).
  rewrite float_of_int_small in Hfk by lia. inversion Hfk.
  now rewrite percent_all.
Qed.

Lemma pct_none (n : Z) : 0 < n < 2 ^ 53 -> pct 0 n = Ok 0%float.
Proof.
  intros Hn. destruct (pct_small 0 n ltac:(lia) ltac:(lia)) as (fk & Hfk & ->).
  rewrite float_of_int_0 in Hfk. inversion Hfk. now rewrite percent_none.
Qed.

Lemma filter_all {A : Type} (f : A -> bool) (xs : list A) :
  Forall (fun x => f x = true) xs -> filter f xs = xs.
Proof.
  induction 1 as [|x xs Hx _ IH]; trivial. cbn [filter]. now rewrite Hx, IH.
Qed.

Lemma filter_none {A : Type} (f : A -> bool) (xs : list A) :
  Forall (fun x => f x = false) xs -> filter f xs = [].
Proof.
  induction 1 as [|x xs Hx _ IH]; trivial. cbn [filter]. now rewrite Hx.
Qed.

(** X3: on a list of at most 2^46 records the win rate is exactly 100 when
    every record is a win and exactly 0 when none is. *)
Theorem win_rate_extremes (p : string -> option float) (rows : list pyval)
  (s : Summary) :
  summarize p rows = Ok s -> 0 < len rows <= 2 ^ 46 ->
  (Forall (fun r => has_result "WIN" r = true) rows ->
   s_win_rate_pct s = 100%float) /\
  (Forall (fun r => has_result "WIN" r = false) rows ->
   s_win_rate_pct s = 0%float).
Proof.
  intros Hs Hlen. assert (H46 : 2 ^ 46 < 2 ^ 53) by reflexivity.
  destruct (summarize_inv p rows s Hs)
    as (? & ? & ? & ? & ? & ? & ? & _ & _ & _ & _ & _ & _ & _ & _ & Hw & Hpct & _).
  apply count_result_inv in Hw. rewrite Hw in Hpct. split; intros Hall.
  - rewrite filter_all, pct_all in Hpct by trivial. now inversion Hpct.
  - rewrite filter_none in Hpct by trivial.
    change (len (@nil pyval)) with 0 in Hpct.
    rewrite pct_none in Hpct by lia. now inversion Hpct.
Qed.

Lemma win_rate_extremes_witness :
  exists s, summarize rejects_all [record_A; record_win] = Ok s /\
            s_win_rate_pct s = 100%float.
Proof.
  destruct (summarize rejects_all [record_A; record_win]) as [s|e] eqn:E;
    [|discriminate E].
  exists s. split; trivial.
  apply (win_rate_extremes rejects_all [record_A; record_win] s E).
  - split; [reflexivity | discriminate].
  - repeat constructor.
Defined.

(** ** Exit types *)

Lemma eq_str_exclusive (x : pyval) (s t : string) :
  s <> t -> eq_str x s = true -> eq_str x t = false.
Proof.
  destruct x; simpl; try discriminate. intros Hne Hs.
  apply String.eqb_eq in Hs. subst. now apply String.eqb_neq.
Qed.

Lemma filter3_le {A : Type} (f g h : A -> bool) (xs : list A) :
  (forall x, f x = true -> g x = false /\ h x = false) ->
  (forall x, g x = true -> h x = false) ->
  len (filter f xs) + len (filter g xs) + len (filter h xs) <= len xs.
Proof.
  intros Hf Hg. induction xs as [|x xs IH]; [unfold len; simpl; lia|].
  cbn [filter]. rewrite len_cons.
  destruct (f x) eqn:Ef.
  - destruct (Hf x Ef) as [-> ->]. rewrite len_cons. lia.
  - destruct (g x) eqn:Eg.
    + rewrite (Hg x Eg), len_cons. lia.
    + destruct (h x); rewrite ?len_cons; lia.
Qed.

Lemma has_exit_type_exclusive (s t : string) (r : pyval) :
  s <> t -> has_exit_type s r = true -> has_exit_type t r = false.
Proof.
  unfold has_exit_type. intros Hne.
  destruct (nested_get r "simulation" "exitType"); trivial.
  now apply eq_str_exclusive.
Qed.

(** X4: the three exit percentages are [pct] of the number of records
    whose [exitType] is ["TARGET"], ["STOP"] and ["TIME"]; those numbers add
    up to at most n, and on a non-empty list of at most 2^46 records each
    percentage lies within 0 and 100. *)
Theorem exit_percentages (p : string -> option float) (rows : list pyval)
  (s : Summary) :
  summarize p rows = Ok s ->
  let count := fun k => len (filter (has_exit_type k) rows) in
  pct (count "TARGET") (len rows) = Ok (s_target_hit_pct s) /\
  pct (count "STOP") (len rows) = Ok (s_stop_hit_pct s) /\
  pct (count "TIME") (len rows) = Ok (s_time_exit_pct s) /\
  count "TARGET" + count "STOP" + count "TIME" <= len rows /\
  (0 < len rows <= 2 ^ 46 ->
   Forall (fun f => (0 <=? f)%float = true /\ (f <=? 100)%float = true)
          [s_target_hit_pct s; s_stop_hit_pct s; s_time_exit_pct s]).
Proof.
  intros Hs count.
  destruct (summarize_inv p rows s Hs)
    as (? & ? & ? & ? & ? & ? & ex & _ & _ & _ & _ & _ & _ & Hc & _ & _ & _ & _ & _
        & _ & _ & _ & _ & Ht & Hst & Hti & _).
  rewrite (Counter_get rows ex _ Hc) in Ht. rewrite (Counter_get rows ex _ Hc) in Hst.
  rewrite (Counter_get rows ex _ Hc) in Hti.
  fold (count "TARGET") in Ht. fold (count "STOP") in Hst. fold (count "TIME") in Hti.
  assert (Hsum : count "TARGET" + count "STOP" + count "TIME" <= len rows).
  { apply filter3_le.
    - intros r Hr. split; apply (has_exit_type_exclusive "TARGET"); trivial; discriminate.
    - intros r Hr. apply (has_exit_type_exclusive "STOP"); trivial; discriminate. }
  assert (H0 : forall k, 0 <= count k) by (intros k; apply len_nonneg).
  pose proof (H0 "TARGET"). pose proof (H0 "STOP"). pose proof (H0 "TIME").
  repeat split; trivial. intros Hlen.
  repeat constructor;
    match goal with
    | |- (0 <=? ?f)%float = true =>
      match goal with H : pct ?k _ = Ok f |- _ =>
        apply (pct_bounds k (len rows) f); trivial; lia end
    | |- (?f <=? 100)%float = true =>
      match goal with H : pct ?k _ = Ok f |- _ =>
        apply (pct_bounds k (len rows) f); trivial; lia end
    end.
Qed.

Lemma exit_percentages_witness :
  exists s, summarize rejects_all [record_A; record_B; record_win] = Ok s /\
    Forall (fun f => (0 <=? f)%float = true /\ (f <=? 100)%float = true)
           [s_target_hit_pct s; s_stop_hit_pct s; s_time_exit_pct s].
Proof.
  destruct (summarize rejects_all [record_A; record_B; record_win]) as [s|e] eqn:E;
    [|discriminate E].
  exists s. split; trivial.
  apply (exit_percentages rejects_all [record_A; record_B; record_win] s E).
  split; [reflexivity | discriminate].
Defined.

(** ** The profit factor is never negative *)

Lemma SFleb_0_not_neg (x : spec_float) :
  SFleb (S754_zero false) x = true -> SFltb x (S754_zero false) = false.
Proof. destruct x as [[|]|[|]| |[|] m e]; trivial; discriminate. Qed.

Lemma SFdiv_acc_pos (x y : spec_float) :
  SFacc x = true -> SFpos y = true ->
  SFltb (SFdiv prec emax x y) (S754_zero false) = false.
Proof.
  intros Hx Hy.
  destruct x as [[|]|[|]| |[|] mx ex]; try discriminate;
  destruct y as [[|]|[|]| |[|] my ey]; try discriminate; trivial.
  apply SFleb_0_not_neg, SFdiv_nonneg.
Qed.

Lemma div_not_neg (g l : float) :
  is_acc g = true -> is_pos l = true -> (g / l <? 0)%float = false.
Proof.
  rewrite is_pos_spec, ltb_spec, div_spec, Prim2SF_0. unfold is_acc.
  apply SFdiv_acc_pos.
Qed.

Lemma pf_ratio_not_neg (g l f : float) :
  is_acc g = true -> is_acc l = true -> pf_ratio (g, l) = Ok f ->
  (f <? 0)%float = false.
Proof.
  intros Hg Hl. rewrite pf_ratio_value, is_acc_eqb_0 by trivial.
  intros H. inversion H; subst f; clear H.
  destruct (is_pos l) eqn:Hp; cbn [negb].
  - now apply div_not_neg.
  - now destruct (0 <? g)%float.
Qed.

Lemma mapM_Raise_inv {A B : Type} (f : A -> result B) (xs : list A) (e : exn) :
  mapM f xs = Raise e -> exists x, In x xs /\ f x = Raise e.
Proof.
  induction xs as [|x xs IH]; [discriminate|]. cbn [mapM].
  destruct (f x) as [y|e'] eqn:E; cbn [bind].
  - destruct (mapM f xs) as [ys|e'']; cbn [bind]; [discriminate|].
    intros H. inversion H; subst. destruct (IH eq_refl) as (x' & Hin & Hx').
    exists x'. split; [now right | trivial].
  - intros H. inversion H; subst. exists x. split; [now left | trivial].
Qed.

(** X5: [profit_factor] never returns a negative number (it returns a
    number that is not below zero, plus infinity, or NaN), and the only
    exception it raises is the [AttributeError] of a lookup: it never divides
    by zero. *)
Theorem profit_factor_never_negative (p : string -> option float)
  (rows : list pyval) :
  (forall f, profit_factor p rows = Ok f -> (f <? 0)%float = false) /\
  (forall e, profit_factor p rows = Raise e -> e = AttributeError) /\
  (Forall (fun r => readable "simulation" r = true) rows ->
   returns (profit_factor p rows)).
Proof.
  split; [|split].
  - intros f. unfold profit_factor. rewrite pf_loop_mapM.
    destruct (mapM get_R rows) as [vals|]; cbn [bind]; [|discriminate].
    destruct (fold_pf_step_acc (map (float_or_zero p) vals) (0%float, 0%float)
                               is_acc_0 is_acc_0) as [Hg Hl].
    destruct (fold_left pf_step _ _) as [g l]. now apply pf_ratio_not_neg.
  - intros e. rewrite profit_factor_value.
    destruct (mapM get_R rows) as [vals|e'] eqn:E; cbn [bind]; [discriminate|].
    intros H. inversion H; subst e'.
    destruct (mapM_Raise_inv _ _ _ E) as (r & _ & Hr).
    now apply nested_get_error in Hr.
  - intros Hall. apply profit_factor_returns.
    destruct (mapM_returns get_R rows) as (vals & Hv & _); [|now exists vals].
    now apply readable_all_returns.
Qed.

Lemma profit_factor_never_negative_witness :
  exists f, profit_factor rejects_all [record_A; record_B; record_text_R] = Ok f /\
            (f <? 0)%float = false.
Proof.
  destruct (profit_factor_never_negative rejects_all [record_A; record_B; record_text_R])
    as (H1 & _ & H3).
  destruct H3 as [f Hf]; [repeat constructor|].
  exists f. split; [exact Hf | exact (H1 f Hf)].
Defined.

(** ** The partition *)

Lemma partition_loop_raises (events buy_true buy_false : list pyval) :
  Exists (fun r => readable "signal" r = false) events ->
  partition_loop events buy_true buy_false = Raise AttributeError.
Proof.
  intros Hex. revert buy_true buy_false.
  induction events as [|r events IH]; intros buy_true buy_false; [inversion Hex|].
  cbn [partition_loop].
  destruct (nested_get r "signal" "buyNow") as [x|e] eqn:E; cbn [bind].
  - assert (Hex' : Exists (fun r => readable "signal" r = false) events).
    { inversion Hex as [? ? Hr|]; subst; trivial.
      rewrite (unreadable_raises _ "buyNow" r Hr) in E. discriminate. }
    destruct (is_True x); now apply IH.
  - now rewrite (nested_get_error _ _ _ _ E).
Qed.

Lemma Forall_or_Exists_readable (outer : string) (rows : list pyval) :
  Forall (fun r => readable outer r = true) rows \/
  Exists (fun r => readable outer r = false) rows.
Proof.
  induction rows as [|r rows [IH|IH]]; [left; constructor| |].
  - destruct (readable outer r) eqn:E; [left | right]; now constructor.
  - right. now apply Exists_cons_tl.
Qed.

(** X6: the partition loop returns the two groups exactly when every event
    is a mapping whose [signal] is absent, false or a mapping; any other
    event makes it raise [AttributeError]. *)
Theorem partition_returns_iff (events : list pyval) :
  (returns (partition_events events) <->
   Forall (fun r => readable "signal" r = true) events) /\
  (Exists (fun r => readable "signal" r = false) events ->
   partition_events events = Raise AttributeError).
Proof.
  assert (Hraise : Exists (fun r => readable "signal" r = false) events ->
                   partition_events events = Raise AttributeError)
    by apply partition_loop_raises.
  split; trivial. split.
  - intros [g Hg]. destruct (Forall_or_Exists_readable "signal" events) as [H|H]; trivial.
    rewrite (Hraise H) in Hg. discriminate.
  - intros H. unfold partition_events.
    rewrite partition_loop_filter; [now eexists|].
    now apply readable_all_returns.
Qed.

Lemma partition_returns_iff_witness :
  partition_events [record_A; PDict [("signal", PStr "yes")]] = Raise AttributeError.
Proof.
  apply (partition_returns_iff [record_A; PDict [("signal", PStr "yes")]]).
  apply Exists_cons_tl, Exists_cons_hd. reflexivity.
Defined.

(** ** The two groups together *)

Lemma filter_filter_split {A : Type} (f g : A -> bool) (xs : list A) :
  len (filter f (filter g xs)) + len (filter f (filter (fun x => negb (g x)) xs))
  = len (filter f xs).
Proof.
  induction xs as [|x xs IH]; trivial. cbn [filter].
  destruct (g x); cbn [negb filter]; destruct (f x); rewrite ?len_cons; lia.
Qed.

Lemma Forall_filter_keep {A : Type} (P : A -> Prop) (f : A -> bool) (xs : list A) :
  Forall P xs -> Forall P (filter f xs).
Proof.
  intros H. rewrite Forall_forall in *. intros x Hx.
  apply filter_In in Hx. now apply H.
Qed.

(** X7: for fewer than 2^53 events that are trade records with a hashable
    [exitType], [main] gets a summary for each group; the two n add up to
    the number of events and the two win counts to the number of winning
    events. *)
Theorem groups_add_up (p : string -> option float) (events : list pyval) :
  Forall (fun r => readable "signal" r = true /\ countable_record r = true) events ->
  len events < 2 ^ 53 ->
  exists s_true s_false,
    main_summaries p events = Ok (s_true, s_false) /\
    s_n s_true + s_n s_false = len events /\
    s_wins s_true + s_wins s_false = len (filter (has_result "WIN") events).
Proof.
  intros Hwf Hlen.
  assert (Hsig : Forall (fun r => readable "signal" r = true) events)
    by (eapply Forall_impl; [|exact Hwf]; now intros r [? ?]).
  assert (Hcnt : Forall (fun r => countable_record r = true) events)
    by (eapply Forall_impl; [|exact Hwf]; now intros r [? ?]).
  unfold main_summaries, partition_events.
  rewrite partition_loop_filter by now apply readable_all_returns.
  cbn [bind fst snd app].
  pose proof (filter_split_length buy_now events) as Hsplit.
  pose proof (len_nonneg (filter buy_now events)).
  pose proof (len_nonneg (filter (fun r => negb (buy_now r)) events)).
  destruct (summarize_returns p (filter buy_now events)) as [st Hst];
    [now apply Forall_filter_keep | lia |].
  destruct (summarize_returns p (filter (fun r => negb (buy_now r)) events)) as [sf Hsf];
    [now apply Forall_filter_keep | lia |].
  rewrite Hst, Hsf. cbn [bind]. exists st, sf. split; trivial.
  destruct (summarize_inv p _ st Hst)
    as (? & ? & ? & ? & ? & ? & ? & _ & _ & _ & _ & _ & _ & _ & Hn1 & Hw1 & _).
  destruct (summarize_inv p _ sf Hsf)
    as (? & ? & ? & ? & ? & ? & ? & _ & _ & _ & _ & _ & _ & _ & Hn2 & Hw2 & _).
  apply count_result_inv in Hw1, Hw2. rewrite Hn1, Hn2, Hw1, Hw2.
  split; [exact Hsplit | apply filter_filter_split].
Qed.

Lemma groups_add_up_witness :
  exists s_true s_false,
    main_summaries rejects_all [record_A; record_B; record_text_R]
      = Ok (s_true, s_false) /\
    s_n s_true + s_n s_false = 3 /\
    s_wins s_true + s_wins s_false = 1.
Proof.
  apply (groups_add_up rejects_all [record_A; record_B; record_text_R]).
  - repeat constructor.
  - reflexivity.
Defined.

(** ** An empty group *)

Lemma delta_values_nan_l (p : string -> option float) (bv : pyval) :
  delta_values p (PFloat nan) bv = nan.
Proof. unfold delta_values. simpl. now destruct (py_float p bv). Qed.

Lemma delta_values_nan_r (p : string -> option float) (av : pyval) :
  delta_values p av (PFloat nan) = nan.
Proof.
  unfold delta_values. destruct (py_float p av); trivial. simpl.
  now rewrite andb_false_r.
Qed.

Lemma summarize_nil (p : string -> option float) (s : Summary) :
  summarize p [] = Ok s ->
  forall key, In key delta_keys -> summary_get s key = PFloat nan.
Proof.
  intros H. inversion H; subst s; clear H. intros key Hin.
  repeat (destruct Hin as [<-|Hin]; [reflexivity|]). destruct Hin.
Qed.

(** X8: when one of the two groups is empty, every entry of the delta
    table is NaN. *)
Theorem empty_group_deltas (p : string -> option float) (events : list pyval)
  (s_true s_false : Summary) :
  main_summaries p events = Ok (s_true, s_false) ->
  filter buy_now events = [] \/ filter (fun r => negb (buy_now r)) events = [] ->
  Forall (fun kv => snd kv = nan) (deltas p s_true s_false).
Proof.
  unfold main_summaries. intros H Hempty.
  apply bind_Ok in H. destruct H as ([bt bf] & Hp & H). cbn [fst snd] in H.
  apply bind_Ok in H. destruct H as (st & Hst & H).
  apply bind_Ok in H. destruct H as (sf & Hsf & H). inversion H; subst st sf; clear H.
  assert (Hsig : Forall (fun r => readable "signal" r = true) events).
  { destruct (Forall_or_Exists_readable "signal" events) as [Hf|Hex]; trivial.
    unfold partition_events in Hp. rewrite partition_loop_raises in Hp by trivial.
    discriminate. }
  unfold partition_events in Hp.
  rewrite partition_loop_filter in Hp by now apply readable_all_returns.
  cbn [app] in Hp. inversion Hp; subst bt bf; clear Hp.
  unfold deltas. apply Forall_map. apply Forall_forall. intros key Hin.
  cbn [snd]. unfold delta. destruct Hempty as [E|E].
  - rewrite E in Hst. rewrite (summarize_nil p s_true Hst key Hin).
    apply delta_values_nan_l.
  - rewrite E in Hsf. rewrite (summarize_nil p s_false Hsf key Hin).
    apply delta_values_nan_r.
Qed.

Lemma empty_group_deltas_witness :
  exists s_true s_false,
    main_summaries rejects_all [record_B; record_text_R] = Ok (s_true, s_false) /\
    Forall (fun kv => snd kv = nan) (deltas rejects_all s_true s_false).
Proof.
  destruct (main_summaries rejects_all [record_B; record_text_R]) as [[st sf]|e] eqn:E;
    [|discriminate E].
  exists st, sf. split; trivial.
  apply (empty_group_deltas rejects_all [record_B; record_text_R] st sf E).
  left. reflexivity.
Defined.

(** ** The median *)

Lemma insert_sorted_In (x y : float) (ys : list float) :
  In y (insert_sorted x ys) -> y = x \/ In y ys.
Proof.
  induction ys as [|z ys IH]; simpl.
  - intros [H|[]]. now left.
  - destruct (z <? x)%float; simpl; intros [H|H]; auto.
    destruct (IH H); auto.
Qed.

Lemma sorted_In (y : float) (ys : list float) : In y (sorted ys) -> In y ys.
Proof.
  induction ys as [|z ys IH]; simpl; trivial.
  intros H. apply insert_sorted_In in H. destruct H; auto.
Qed.

Lemma div2_lt (n : nat) : (0 < n)%nat -> (Nat.div n 2 < n)%nat.
Proof. intros H. apply Nat.div_lt; lia. Qed.

(** X9: [safe_median] never raises.  With no finite value it is NaN; with
    an odd number of them it is one of them; with an even number it is half
    the sum of two of them. *)
Theorem safe_median_value (p : string -> option float) (xs : list pyval) :
  exists m,
    safe_median p xs = Ok m /\
    let ys := survivors p xs in
    (ys = [] -> m = nan) /\
    (Nat.odd (List.length ys) = true -> In m ys) /\
    (ys <> [] -> Nat.odd (List.length ys) = false ->
     exists a b, In a ys /\ In b ys /\ m = ((a + b) / 2)%float).
Proof.
  rewrite safe_median_survivors. cbv zeta.
  destruct (survivors p xs) as [|y ys] eqn:E.
  - exists nan. repeat split; trivial; try discriminate. congruence.
  - unfold median. rewrite sorted_length.
    set (zs := y :: ys) in *. set (n := List.length zs).
    assert (Hn : (0 < n)%nat) by (unfold n, zs; simpl; lia).
    assert (Hnth : forall i, (i < n)%nat -> In (nth i (sorted zs) 0%float) zs).
    { intros i Hi. apply sorted_In, nth_In. now rewrite sorted_length. }
    destruct n as [|k] eqn:En; [lia|]. rewrite <- En in *.
    destruct (Nat.odd n) eqn:Hodd.
    + eexists. split; [reflexivity|]. repeat split; try discriminate.
      intros _. apply Hnth. now apply div2_lt.
    + rewrite fdiv_int_2. eexists. split; [reflexivity|].
      repeat split; try discriminate. intros _ _.
      pose proof (div2_lt n Hn).
      exists (nth (Nat.div n 2 - 1) (sorted zs) 0%float),
             (nth (Nat.div n 2) (sorted zs) 0%float).
      repeat split; apply Hnth; lia.
Qed.

Lemma safe_median_value_witness :
  exists m a b,
    safe_median rejects_all [PInt 3; PStr "n/a"; PInt 1; PFloat infinity] = Ok m /\
    In a [3%float; 1%float] /\ In b [3%float; 1%float] /\ m = ((a + b) / 2)%float.
Proof.
  destruct (safe_median_value rejects_all [PInt 3; PStr "n/a"; PInt 1; PFloat infinity])
    as (m & Hm & _ & _ & H).
  destruct H as (a & b & Ha & Hb & Hab); [discriminate | reflexivity |].
  exists m, a, b. repeat split; trivial.
Defined.

(** ** Order of the records *)

Lemma len_filter_perm {A : Type} (f : A -> bool) (xs ys : list A) :
  Permutation xs ys -> len (filter f xs) = len (filter f ys).
Proof.
  induction 1 as [|x xs ys _ IH|x y xs|xs ys zs _ IH1 _ IH2]; trivial.
  - cbn [filter]. destruct (f x); rewrite ?len_cons; lia.
  - cbn [filter]. destruct (f x), (f y); rewrite ?len_cons; lia.
  - lia.
Qed.

Lemma Ok_inj {A : Type} (a b : A) : Ok a = Ok b -> a = b.
Proof. now inversion 1. Qed.

(** X10: the counts and percentages of a summary do not depend on the
    order of the records: a reordered list (of fewer than 2^53 records) also
    has a summary, with the same n, wins, win rate and exit percentages. *)
Theorem counts_ignore_order (p : string -> option float) (rows rows' : list pyval)
  (s : Summary) :
  Permutation rows rows' -> len rows < 2 ^ 53 -> summarize p rows = Ok s ->
  exists s',
    summarize p rows' = Ok s' /\
    s_n s' = s_n s /\ s_wins s' = s_wins s /\
    s_win_rate_pct s' = s_win_rate_pct s /\
    s_target_hit_pct s' = s_target_hit_pct s /\
    s_stop_hit_pct s' = s_stop_hit_pct s /\
    s_time_exit_pct s' = s_time_exit_pct s.
Proof.
  intros Hperm Hlen Hs.
  assert (Hl : len rows' = len rows).
  { unfold len. now rewrite (Permutation_length Hperm). }
  destruct (summarize_returns p rows') as [s' Hs'].
  { eapply Permutation_Forall; [exact Hperm|]. now apply (summarize_Ok_countable p rows s). }
  { lia. }
  exists s'. split; trivial.
  destruct (summarize_inv p _ s Hs)
    as (? & ? & ? & ? & ? & ? & ex & _ & _ & _ & _ & _ & _ & Hc & Hn & Hw & Hpct & _ & _
        & _ & _ & _ & _ & Ht & Hst & Hti & _).
  destruct (summarize_inv p _ s' Hs')
    as (? & ? & ? & ? & ? & ? & ex' & _ & _ & _ & _ & _ & _ & Hc' & Hn' & Hw' & Hpct' & _
        & _ & _ & _ & _ & _ & Ht' & Hst' & Hti' & _).
  pose proof (count_result_inv _ _ _ Hw) as Hwv.
  pose proof (count_result_inv _ _ _ Hw') as Hwv'.
  assert (Hweq : s_wins s' = s_wins s).
  { rewrite Hwv, Hwv'. symmetry. now apply len_filter_perm. }
  assert (Hex : forall k, counter_get ex' k = counter_get ex k).
  { intros k. rewrite (Counter_get _ _ k Hc), (Counter_get _ _ k Hc').
    symmetry. now apply len_filter_perm. }
  rewrite Hl, Hweq in Hpct'. rewrite Hl, Hex in Ht', Hst', Hti'.
  repeat split; try congruence; apply Ok_inj; congruence.
Qed.

Lemma counts_ignore_order_witness :
  exists s',
    summarize rejects_all [record_B; record_A] = Ok s' /\
    s_n s' = 2 /\ s_wins s' = 1 /\ s_win_rate_pct s' = 50%float.
Proof.
  destruct (summarize rejects_all [record_A; record_B]) as [s|e] eqn:E;
    [|discriminate E].
  destruct (counts_ignore_order rejects_all [record_A; record_B] [record_B; record_A] s)
    as (s' & Hs' & Hn & Hw & Hr & _); [apply perm_swap | reflexivity | exact E |].
  exists s'. split; [exact Hs'|]. inversion E; subst s; clear E.
  split; [exact Hn|]. split; [exact Hw | exact Hr].
Defined.

(** ** A summary against itself *)

Lemma is_finite_SF (x : float) :
  is_finite x = true ->
  match Prim2SF x with
  | S754_zero _ | S754_finite _ _ _ => True
  | _ => False
  end.
Proof.
  unfold is_finite, is_nan, is_infinity.
  rewrite !FloatAxioms.eqb_spec, abs_spec, Prim2SF_inf.
  destruct (Prim2SF x) as [[|]|[|]| |[|] m e]; simpl; trivial; try discriminate.
Qed.

Lemma sub_self (x : float) : is_finite x = true -> (x - x)%float = 0%float.
Proof.
  intros H. apply is_finite_SF in H. apply Prim2SF_inj.
  rewrite sub_spec, Prim2SF_0.
  destruct (Prim2SF x) as [[|]|[|]| |s m e]; try contradiction; trivial.
  unfold SF64sub, SFsub. now rewrite Z.sub_diag.
Qed.

(** X11: compared with itself a summary has delta 0.0 in every field that
    holds a finite number, and NaN in every other. *)
Theorem delta_self (p : string -> option float) (a : Summary) (key : string) :
  (forall x, py_float p (summary_get a key) = Ok x -> is_finite x = true ->
             delta p a a key = 0%float) /\
  ((forall x, py_float p (summary_get a key) = Ok x -> is_finite x = false) ->
   delta p a a key = nan).
Proof.
  unfold delta, delta_values. split.
  - intros x -> Hx. rewrite Hx. cbn [andb]. now apply sub_self.
  - intros H. destruct (py_float p (summary_get a key)) as [x|]; trivial.
    now rewrite (H x eq_refl).
Qed.

Lemma delta_self_witness :
  exists s, summarize rejects_all [record_A] = Ok s /\
            delta rejects_all s s "avg_R" = 0%float /\
            delta rejects_all s s "profit_factor" = nan.
Proof.
  destruct (summarize rejects_all [record_A]) as [s|e] eqn:E; [|discriminate E].
  exists s. split; trivial. inversion E; subst s; clear E. split.
  - eapply (delta_self rejects_all); reflexivity.
  - apply (delta_self rejects_all). intros x Hx. inversion Hx. reflexivity.
Defined.

(** ** The tables *)

Lemma fold_left_max_ge (xs : list Z) (a : Z) :
  a <= fold_left Z.max xs a /\ Forall (fun x => x <= fold_left Z.max xs a) xs.
Proof.
  revert a. induction xs as [|x xs IH]; intros a; simpl; [split; [lia | constructor]|].
  destruct (IH (Z.max a x)) as [H1 H2]. split; [lia|].
  constructor; [lia | exact H2].
Qed.

Lemma py_max_spec (xs : list Z) :
  xs <> [] -> exists m, py_max xs = Ok m /\ Forall (fun x => x <= m) xs.
Proof.
  destruct xs as [|x xs]; [congruence|]. intros _. eexists. split; [reflexivity|].
  destruct (fold_left_max_ge xs x). now constructor.
Qed.

Lemma len_ljust (t : text) (w : Z) : len t <= w -> len (ljust t w) = w.
Proof.
  intros H. unfold ljust. rewrite len_app, len_repeat. pose proof (len_nonneg t). lia.
Qed.

Lemma len_rjust (t : text) (w : Z) : len t <= w -> len (rjust t w) = w.
Proof.
  intros H. unfold rjust. rewrite len_app, len_repeat. pose proof (len_nonneg t). lia.
Qed.

Lemma len_table_row (width_k width_v : Z) (k v : text) :
  len k <= width_k -> len v <= width_v ->
  len (table_row width_k width_v k v) = width_k + 3 + width_v.
Proof.
  intros Hk Hv. unfold table_row.
  rewrite !len_app, len_ljust, len_rjust by trivial.
  change (len (lit " : ")) with 3. lia.
Qed.

Lemma len_dashes (n : Z) : 0 <= n -> len (dashes n) = n.
Proof. intros H. unfold dashes. rewrite len_repeat. lia. Qed.

(** the rows of a table whose widths are the largest key and value *)
Lemma rows_aligned {A : Type} (key value : A -> text) (xs : list A) (wk wv : Z) :
  Forall (fun x => x <= wk) (map (fun a => len (key a)) xs) ->
  Forall (fun x => x <= wv) (map (fun a => len (value a)) xs) ->
  Forall (fun row => len row = wk + 3 + wv)
         (map (fun a => table_row wk wv (key a) (value a)) xs).
Proof.
  rewrite !Forall_map. intros Hk Hv. rewrite Forall_forall in *.
  intros a Hin. apply len_table_row; [now apply Hk | now apply Hv].
Qed.

(** X12: [print_table] never raises.  It prints the title block, fifteen
    rows and the bar; every row is made of its whole key, padding, [" : "],
    padding and its whole value, all rows have the same length, and the bar
    is two characters longer. *)
Theorem print_table_aligned (p : string -> option float)
  (format_fixed : float -> nat -> text) (py_str : pyval -> text)
  (title : text) (s : Summary) :
  exists width_k width_v rows,
    let bar := dashes (width_k + width_v + 5) in
    print_table p format_fixed py_str title s
      = Ok (([10%N] ++ title ++ [10%N] ++ bar) :: rows ++ [bar]) /\
    rows = map (fun kv => table_row width_k width_v (fst kv) (str_cell py_str (snd kv)))
               (headers p format_fixed py_str s) /\
    List.length rows = 15%nat /\
    Forall (fun row => len row = width_k + 3 + width_v) rows /\
    len bar = width_k + 3 + width_v + 2.
Proof.
  unfold print_table.
  set (hs := headers p format_fixed py_str s).
  destruct (py_max_spec (map (fun kv => len (fst kv)) hs)) as (wk & -> & Hk);
    [discriminate|].
  destruct (py_max_spec (map (fun kv => len (str_cell py_str (snd kv))) hs))
    as (wv & -> & Hv); [discriminate|].
  cbn [bind]. exists wk, wv. eexists. cbv zeta.
  split; [reflexivity|]. split; [reflexivity|]. split; [reflexivity|]. split.
  - now apply rows_aligned.
  - assert (0 <= wk).
    { inversion Hk as [|? ? H _]; subst. pose proof (len_nonneg (lit "Trades")).
      unfold hs in H. simpl fst in H. lia. }
    assert (0 <= wv).
    { inversion Hv as [|? ? H' _]; subst.
      pose proof (len_nonneg (str_cell py_str (snd (hd (lit "", Raw PNone) hs)))).
      unfold hs in *. simpl in *. lia. }
    rewrite len_dashes; lia.
Qed.

(** X13: the delta section never raises either: one row per entry of
    [deltas], all of the same length, between two bars that are two
    characters longer. *)
Theorem print_deltas_aligned (p : string -> option float)
  (format_fixed : float -> nat -> text) (py_str : pyval -> text)
  (s_true s_false : Summary) :
  exists width_k width_v rows,
    let bar := dashes (width_k + width_v + 5) in
    print_deltas p format_fixed py_str (deltas p s_true s_false)
      = Ok ([[10%N; 916%N] ++ lit " True - False"; bar] ++ rows ++ [bar]) /\
    rows = map (fun kv => table_row width_k width_v (lit (fst kv))
                                    (fmt p format_fixed py_str (PFloat (snd kv)) 2))
               (deltas p s_true s_false) /\
    List.length rows = 13%nat /\
    Forall (fun row => len row = width_k + 3 + width_v) rows /\
    len bar = width_k + 3 + width_v + 2.
Proof.
  unfold print_deltas.
  set (ds := deltas p s_true s_false).
  destruct (py_max_spec (map (fun kv => len (lit (fst kv))) ds)) as (wk & -> & Hk);
    [discriminate|].
  destruct (py_max_spec
              (map (fun kv => len (fmt p format_fixed py_str (PFloat (snd kv)) 2)) ds))
    as (wv & -> & Hv); [discriminate|].
  cbn [bind]. exists wk, wv. eexists. cbv zeta.
  split; [reflexivity|]. split; [reflexivity|]. split; [reflexivity|]. split.
  - now apply (rows_aligned (fun kv => lit (fst kv))
                            (fun kv => fmt p format_fixed py_str (PFloat (snd kv)) 2)).
  - assert (0 <= wk).
    { inversion Hk as [|? ? H _]; subst. unfold ds in H.
      pose proof (len_nonneg (lit "win_rate_%")). simpl fst in H. lia. }
    assert (0 <= wv).
    { inversion Hv as [|? ? H' _]; subst.
      match type of H' with ?l <= _ => assert (0 <= l) by apply len_nonneg end. lia. }
    rewrite len_dashes; lia.
Qed.

(** ** Losses without gains *)

Lemma fold_pf_step_no_gain (Rs : list float) (g l : float) :
  Forall (fun R => (0 <? R)%float = false) Rs ->
  fst (fold_left pf_step Rs (g, l)) = g.
Proof.
  intros H. revert l. induction H as [|R Rs HR _ IH]; intros l; trivial.
  cbn [fold_left]. unfold pf_step at 2. rewrite HR.
  destruct (R <? 0)%float; apply IH.
Qed.

Lemma fold_pf_step_losses_pos (Rs : list float) (g l : float) :
  is_pos l = true -> is_pos (snd (fold_left pf_step Rs (g, l))) = true.
Proof.
  revert g l. induction Rs as [|R Rs IH]; intros g l Hl; trivial.
  cbn [fold_left]. unfold pf_step at 2.
  destruct (0 <? R)%float; [now apply IH|].
  destruct (R <? 0)%float eqn:Hneg; [|now apply IH].
  apply IH, add_pos; [now apply is_pos_acc | now apply opp_neg_pos].
Qed.

Lemma fold_pf_step_some_loss (Rs : list float) (g l : float) :
  is_acc l = true ->
  Forall (fun R => (0 <? R)%float = false) Rs ->
  Exists (fun R => (R <? 0)%float = true) Rs ->
  is_pos (snd (fold_left pf_step Rs (g, l))) = true.
Proof.
  intros Hl Hall. revert l Hl.
  induction Hall as [|R Rs HR _ IH]; intros l Hl Hex; [inversion Hex|].
  cbn [fold_left]. unfold pf_step at 2. rewrite HR.
  destruct (R <? 0)%float eqn:Hneg.
  - apply fold_pf_step_losses_pos, add_pos; trivial. now apply opp_neg_pos.
  - apply IH; trivial. inversion Hex; subst; trivial. congruence.
Qed.

Lemma div_0_pos (l : float) : is_pos l = true -> (0 / l)%float = 0%float.
Proof.
  rewrite is_pos_spec. intros H. apply Prim2SF_inj. rewrite div_spec, Prim2SF_0.
  destruct (Prim2SF l) as [[|]|[|]| |[|] m e]; try discriminate; reflexivity.
Qed.

(** X14: with at least one negative R and no positive one, the profit
    factor is 0.0. *)
Theorem profit_factor_losses_only (p : string -> option float)
  (rows vals : list pyval) :
  mapM get_R rows = Ok vals ->
  Forall (fun v => (0 <? float_or_zero p v)%float = false) vals ->
  Exists (fun v => (float_or_zero p v <? 0)%float = true) vals ->
  profit_factor p rows = Ok 0%float.
Proof.
  intros Hv Hall Hex. unfold profit_factor. rewrite pf_loop_mapM, Hv. cbn [bind].
  set (Rs := map (float_or_zero p) vals).
  assert (HRs : Forall (fun R => (0 <? R)%float = false) Rs)
    by (unfold Rs; now apply Forall_map).
  assert (HEx : Exists (fun R => (R <? 0)%float = true) Rs)
    by (unfold Rs; now apply Exists_map).
  pose proof (fold_pf_step_no_gain Rs 0 0 HRs) as Hg.
  pose proof (fold_pf_step_some_loss Rs 0 0 is_acc_0 HRs HEx) as Hl.
  destruct (fold_left pf_step Rs (0%float, 0%float)) as [g l].
  cbn [fst snd] in Hg, Hl. subst g.
  rewrite pf_ratio_value, is_acc_eqb_0 by now apply is_pos_acc.
  rewrite Hl. cbn [negb]. now rewrite div_0_pos.
Qed.

Lemma profit_factor_losses_only_witness :
  profit_factor rejects_all [record_B; record_text_R; record_neg_inf] = Ok 0%float.
Proof.
  apply (profit_factor_losses_only rejects_all
           [record_B; record_text_R; record_neg_inf]
           [PInt (-1); PStr "n/a"; PFloat neg_infinity] eq_refl).
  - repeat constructor.
  - apply Exists_cons_hd. reflexivity.
Defined.

(** ** NaN in the delta table *)

Lemma SFeqb_refl (x : spec_float) : x <> S754_nan -> SFeqb x x = true.
Proof.
  destruct x as [[|]|[|]| |[|] m e]; trivial; try congruence; intros _;
    unfold SFeqb, SFcompare; rewrite Z.compare_refl, Pos.compare_cont_refl; reflexivity.
Qed.

Lemma is_nan_spec (x : float) : is_nan x = true <-> Prim2SF x = S754_nan.
Proof.
  unfold is_nan. rewrite FloatAxioms.eqb_spec. split.
  - intros H. destruct (Prim2SF x) eqn:E; trivial;
      rewrite SFeqb_refl in H by discriminate; discriminate.
  - intros ->. reflexivity.
Qed.

Lemma round_result_not_nan (s : bool) (m e : Z) :
  0 <= m -> round_result s m e <> S754_nan.
Proof.
  unfold round_result. destruct m; try lia; intros _; [discriminate|].
  destruct (_ <=? _); discriminate.
Qed.

Lemma binary_round_not_nan (s : bool) (m : positive) (e : Z) :
  binary_round prec emax s m e <> S754_nan.
Proof.
  unfold binary_round.
  destruct (shl_align m e (fexp64 (Z.pos (digits2_pos m) + e))) as [mz ez].
  destruct (binary_round_aux_shape s (Z.pos mz) ez loc_Exact) as (m2 & Hb & _ & ->);
    [lia|].
  cbv zeta in Hb. apply round_result_not_nan.
  set (k := Z.max 0 (fexp64 (Zdigits2 (Z.pos mz) + ez) - ez)) in *.
  assert (0 < 2 ^ k) by (apply Z.pow_pos_nonneg; unfold k; lia).
  assert (0 <= Z.pos mz / 2 ^ k) by (apply Z.div_pos; lia).
  apply Z.div_pos; [lia|]. apply Z.pow_pos_nonneg; lia.
Qed.

Lemma binary_normalize_not_nan (m e : Z) (s : bool) :
  binary_normalize prec emax m e s <> S754_nan.
Proof.
  destruct m; simpl; [discriminate | apply binary_round_not_nan..].
Qed.

Lemma sub_finite_not_nan (x y : float) :
  is_finite x = true -> is_finite y = true -> is_nan (x - y) = false.
Proof.
  intros Hx Hy. apply is_finite_SF in Hx, Hy.
  destruct (is_nan (x - y)) eqn:E; trivial. exfalso.
  apply is_nan_spec in E. rewrite sub_spec in E. revert E.
  destruct (Prim2SF x) as [[|]|[|]| |sx mx ex]; try contradiction;
  destruct (Prim2SF y) as [[|]|[|]| |sy my ey]; try contradiction;
    try discriminate.
  unfold SF64sub, SFsub. apply binary_normalize_not_nan.
Qed.

(** X15: an entry of the delta table is NaN exactly when one of the two
    values is missing, does not coerce or is not finite: the difference of
    two finite values is never NaN. *)
Theorem delta_nan_iff (p : string -> option float) (a b : Summary) (key : string) :
  is_nan (delta p a b key) = true <->
  finite_difference p (summary_get a key) (summary_get b key) = None.
Proof.
  unfold delta, delta_values, finite_difference.
  destruct (py_float p (summary_get a key)) as [x|]; [|split; reflexivity].
  destruct (py_float p (summary_get b key)) as [y|]; [|split; reflexivity].
  destruct (is_finite x) eqn:Hx; [|split; reflexivity].
  destruct (is_finite y) eqn:Hy; [|split; reflexivity].
  cbn [andb]. rewrite sub_finite_not_nan by trivial. split; discriminate.
Qed.

(** ** A single value *)

Lemma SFdiv_one (s : bool) (m : positive) (e : Z) :
  bounded prec emax m e = true ->
  SFdiv prec emax (S754_finite s m e) (SFint 1) = S754_finite s m e.
Proof.
  intros Hbd. destruct (bounded_inv m e Hbd) as [Hc He].
  change (SFint 1) with (S754_finite false 4503599627370496 (-52)).
  unfold SFdiv.
  pose proof (SFdiv_core_binary_spec m 4503599627370496 e (-52)) as Hcore.
  cbv zeta in Hcore.
  change (Zdigits2 (Z.pos 4503599627370496)) with 53 in Hcore.
  change (Zdigits2 (Z.pos m)) with (Z.pos (digits2_pos m)) in Hcore.
  set (d := Z.pos (digits2_pos m)) in *.
  rewrite fexp64_eq in Hc, Hcore.
  assert (Hd : 0 < d) by (unfold d; lia).
  rewrite xorb_false_r.
  destruct (Z.eq_dec e (-1074)) as [->|Hne].
  - replace (Z.min (Z.max (d + -1074 - (53 + -52) - 53) (-1074)) (-1074 - -52))
      with (-1074) in Hcore by lia.
    replace (-1074 - -52 - -1074) with 52 in Hcore by lia.
    change (Z.pos 4503599627370496) with (2 ^ 52) in Hcore.
    rewrite Z.div_mul, Z.mod_mul, new_location_0 in Hcore by lia.
    change (Z.pos 4503599627370496) with (2 ^ 52). rewrite Hcore.
    pose proof (binary_round_aux_exact s m (-1074) 0 ltac:(lia) Hbd) as Hex.
    now rewrite Z.pow_0_r, Z.mul_1_r, Z.sub_0_r in Hex.
  - replace (Z.min (Z.max (d + e - (53 + -52) - 53) (-1074)) (e - -52))
      with (e - 1) in Hcore by lia.
    replace (e - -52 - (e - 1)) with 53 in Hcore by lia.
    change (Z.pos 4503599627370496) with (2 ^ 52) in Hcore.
    replace (Z.pos m * 2 ^ 53) with (Z.pos m * 2 ^ 1 * 2 ^ 52) in Hcore
      by (change (2 ^ 53) with (2 ^ 1 * 2 ^ 52); ring).
    rewrite Z.div_mul, Z.mod_mul, new_location_0 in Hcore by lia.
    change (Z.pos 4503599627370496) with (2 ^ 52). rewrite Hcore.
    exact (binary_round_aux_exact s m e 1 ltac:(lia) Hbd).
Qed.

Lemma Prim2SF_1 : Prim2SF 1%float = SFint 1.
Proof. vm_compute. reflexivity. Qed.

Lemma single_mean (x : float) :
  is_finite x = true -> ((0 + x) / 1 =? x)%float = true.
Proof.
  intros Hx. apply is_finite_SF in Hx.
  rewrite FloatAxioms.eqb_spec, div_spec, add_spec, Prim2SF_0, Prim2SF_1.
  pose proof (Prim2SF_valid x) as Hv.
  destruct (Prim2SF x) as [[|]|[|]| |s m e]; try contradiction; try reflexivity.
  unfold SF64add. cbn [SFadd]. unfold SF64div. rewrite SFdiv_one by exact Hv.
  apply SFeqb_refl. discriminate.
Qed.

(** X16: when exactly one value of a column survives, its safe mean is
    equal to that value and its safe median is that value. *)
Theorem single_survivor (p : string -> option float) (xs : list pyval) (x : float) :
  survivors p xs = [x] ->
  exists m,
    safe_mean p xs = Ok m /\ (m =? x)%float = true /\
    safe_median p xs = Ok x.
Proof.
  intros E. rewrite safe_mean_survivors, safe_median_survivors, E.
  exists ((0 + x) / 1)%float. split; [reflexivity|]. split; [|reflexivity].
  apply single_mean.
  pose proof (survivors_finite p xs) as H. rewrite E in H. now inversion H.
Qed.

Lemma single_survivor_witness :
  exists m,
    safe_mean rejects_all [PStr "n/a"; PFloat 2.5; PFloat nan; PNone] = Ok m /\
    (m =? 2.5)%float = true /\
    safe_median rejects_all [PStr "n/a"; PFloat 2.5; PFloat nan; PNone] = Ok 2.5%float.
Proof.
  apply (single_survivor rejects_all [PStr "n/a"; PFloat 2.5; PFloat nan; PNone]).
  reflexivity.
Defined.
